(** * The View of gpmcc: partition ledger, Gibbs row kernel and queries

    A shallow embedding of [src/view.py] (class [View]) and the properties
    of its row partition accounting.

    Conventions of the embedding.
    - Python floats are idealised as real numbers ([R]); [np.nan], which only
      ever appears as an entry of [Zr], is a constructor of its own.
    - Row ids and cluster labels handed to the mutating methods are natural
      numbers (indices into the dataset and into [Nk]); the query entry
      points [logpdf] and [simulate] take an integer row id because they
      test [0 <= rowid] themselves.
    - A method is a function from the View to an [outcome]: the value it
      returns, or the exception it raises, together with the View as the
      method left it (Python mutates in place, an exception does not roll
      back).
    - [self.dims] is a dict from column index to Dim; it is kept as an
      association list and traversed in list order.
    - The column models (Dim), the random source and gpmcc.utils.general are
      not part of [src/view.py]: the Dim is modelled from the specification
      over an abstract column family, the rest is an interface. *)

From Stdlib Require Import ZArith Reals Lra Lia.
From stdpp Require Import base list.

Set Default Proof Using "Type".

(** ** Python values and exceptions *)

(** An entry of [Zr]: an integer label, or the float [np.nan] that
    [unincorporate_row] writes. *)
Inductive slot : Type :=
| Lbl (k : nat)
| NaN.

#[export] Instance slot_eq_dec : EqDecision slot.
Proof. solve_decision. Defined.

(** [a == b] on such values: a float nan compares unequal to everything,
    itself included. *)
Definition py_eq (a b : slot) : bool :=
  match a, b with
  | Lbl i, Lbl j => Nat.eqb i j
  | _, _ => false
  end.

(** [a > k] for an integer [k]: false on nan. *)
Definition py_gt (a : slot) (k : nat) : bool :=
  match a with
  | Lbl i => Nat.ltb k i
  | NaN => false
  end.

(** [np.isnan]. *)
Definition isnan (a : slot) : bool :=
  match a with
  | NaN => true
  | Lbl _ => false
  end.

(** The [assert] statements of the module, by site. *)
Inductive assertion : Type :=
| AssertAlphaPositive      (* _check_partitions: self.alpha > 0. *)
| AssertPartitionSize      (* _check_partitions: sum(self.Nk) == len(self.Zr) *)
| AssertCandidateLengths   (* _transition_row: len(logp_data) == len(logp_crp) *)
| AssertLabelInRange       (* _logpdf_row: k <= len(self.Nk) *)
| AssertRowCount.          (* reindex_rows: len(self.Zr) == len(self.X) *)

Inductive exn : Type :=
| IndexError
| KeyError
| TypeError
| ValueError
| ZeroDivisionError
| AssertionError (a : assertion)
| RuntimeError             (* maximum recursion depth exceeded *)
| DimError.                (* a column model rejecting its arguments *)

(** ** Outcomes and the method monad *)

Inductive outcome (S A : Type) : Type :=
| Ok (a : A) (s : S)
| Raise (e : exn) (s : S).
Arguments Ok {S A} a s.
Arguments Raise {S A} e s.

Definition state_of {S A} (o : outcome S A) : S :=
  match o with
  | Ok _ s => s
  | Raise _ s => s
  end.

Definition M (S A : Type) : Type := S -> outcome S A.

Definition ret {S A} (a : A) : M S A := fun s => Ok a s.

Definition bind {S A B} (m : M S A) (f : A -> M S B) : M S B :=
  fun s =>
    match m s with
    | Ok a s' => f a s'
    | Raise e s' => Raise e s'
    end.

Definition raise {S A} (e : exn) : M S A := fun s => Raise e s.

Definition get {S} : M S S := fun s => Ok s s.

Definition gets {S A} (f : S -> A) : M S A := fun s => Ok (f s) s.

Definition modify {S} (f : S -> S) : M S unit := fun s => Ok tt (f s).

(** [assert c]. *)
Definition assert {S} (a : assertion) (c : bool) : M S unit :=
  if c then ret tt else raise (AssertionError a).

(** A partial Python operation: [None] becomes the given exception. *)
Definition orraise {S A} (e : exn) (o : option A) : M S A :=
  match o with
  | Some a => ret a
  | None => raise e
  end.

Declare Scope py_scope.
Delimit Scope py_scope with py.
Notation "x <- c ;; k" := (bind c (fun x => k))
  (at level 100, c at next level, right associativity) : py_scope.
Notation "c ;; k" := (bind c (fun _ => k))
  (at level 100, right associativity) : py_scope.
Open Scope py_scope.

(** [for x in l: body(x)]. *)
Fixpoint for_each {S A} (body : A -> M S unit) (l : list A) : M S unit :=
  match l with
  | [] => ret tt
  | x :: l' => body x ;; for_each body l'
  end.

(** [[f(x) for x in l]]. *)
Fixpoint comprehension {S A B} (f : A -> M S B) (l : list A) : M S (list B) :=
  match l with
  | [] => ret []
  | x :: l' => y <- f x ;; ys <- comprehension f l' ;; ret (y :: ys)
  end.

(** ** Lists as Python lists *)

(** [sum(l)] on integers. *)
Definition sumZ (l : list Z) : Z := foldr Z.add 0%Z l.

(** [sum(l)] on floats. *)
Definition sumR (l : list R) : R := foldr Rplus 0%R l.

(** [np.bincount(Zr)]: one counter per label up to the largest. *)
Fixpoint bincount (zs : list nat) : list Z :=
  match zs with
  | [] => []
  | z :: zs' =>
      let c := bincount zs' in
      let c := c ++ replicate (S z - length c) 0%Z in
      alter Z.succ z c
  end.

(** [X[r, c]] on a two-dimensional array. *)
Definition X_at {val} (X : list (list val)) (r c : nat) : option val :=
  match X !! r with
  | Some row => row !! c
  | None => None
  end.

(** [X[:, c]]. *)
Fixpoint X_col {val} (X : list (list val)) (c : nat) : option (list val) :=
  match X with
  | [] => Some []
  | row :: X' =>
      match row !! c, X_col X' c with
      | Some x, Some xs => Some (x :: xs)
      | _, _ => None
      end
  end.

(** [a += b] on a numpy vector [a]: [b] must have the length of [a], or
    length one (it is then broadcast). *)
Definition np_iadd (a b : list R) : option (list R) :=
  if Nat.eqb (length b) (length a) then Some (zip_with Rplus a b)
  else match b with
       | [y] => Some (map (fun x => (x + y)%R) a)
       | _ => None
       end.

(** [a + b] on numpy vectors, with broadcasting of a length-one operand. *)
Definition np_add (a b : list R) : option (list R) :=
  if Nat.eqb (length a) (length b) then Some (zip_with Rplus a b)
  else match a, b with
       | [x], _ => Some (map (fun y => (x + y)%R) b)
       | _, [y] => Some (map (fun x => (x + y)%R) a)
       | _, _ => None
       end.

(** [scipy.misc.logsumexp]. *)
Definition logsumexp (l : list R) : R := ln (sumR (map exp l)).

(** Modelled from the spec: [gu.log_normalize] of gpmcc.utils.general, which
    is not among the sources; "normalize to obtain a posterior over
    clusters": every log-weight less the log-sum-exp of all of them. *)
Definition log_normalize (l : list R) : list R :=
  map (fun x => (x - logsumexp l)%R) l.

(** [np.linspace(a, b, n)]. *)
Definition linspace (a b : R) (n : nat) : list R :=
  map (fun i => (a + INR i * ((b - a) / INR (n - 1)))%R) (seq 0 n).

(** Modelled from the spec: [gu.log_linspace] of gpmcc.utils.general, which
    is not among the sources; "log-spaced" values from [a] to [b]: the
    exponentials of [n] evenly spaced points between [log a] and [log b]. *)
Definition log_linspace (a b : R) (n : nat) : list R :=
  map exp (linspace (ln a) (ln b) n).

(** ** The collaborators of the View *)

(** The statistical family of one column, per cluster: what a Dim keeps for
    each cluster and how it answers for it. *)
Class ClusterModel (val stat gen : Type) : Type := {
  cm_new : stat;
  cm_incorporate : val -> stat -> stat;
  cm_unincorporate : val -> stat -> stat;
  cm_logpdf : val -> stat -> R;
  cm_logpdf_marginal : stat -> R;
  cm_simulate : stat -> gen -> val * gen
}.

(** The random source and the functions of gpmcc.utils.general that draw from
    it or weigh a partition; they are not among the sources and stay
    uninterpreted. *)
Class GeneralUtils (gen : Type) : Type := {
  rng_choice : list R -> gen -> R * gen;
  log_pflip : list R -> gen -> nat * gen;
  simulate_crp : nat -> R -> gen -> list nat * gen;
  logp_crp : nat -> list Z -> R -> R;
  logp_crp_unorm : nat -> nat -> R -> R;
  logp_crp_gibbs : list Z -> list slot -> nat -> R -> nat -> list R
}.

Section ColumnModel.
Context {val stat gen : Type} `{!ClusterModel val stat gen}.

(** Modelled from the spec: the column model (class Dim of gpmcc), which is
    not among the sources. It is "internally partitioned into per-cluster
    sufficient statistics keyed by the same cluster labels as the view's
    assignment"; a label may equal the current cluster count "to request a
    fresh/singleton cluster"; a label outside that range is a contract
    violation, "propagated to the caller as a typed failure". *)
Record Dim : Type := mkDim {
  index : nat;
  clusters : list stat
}.

Definition set_clusters (d : Dim) (cs : list stat) : Dim :=
  mkDim (index d) cs.

(** Modelled from the spec: [incorporate(value, label)]. *)
Definition dim_incorporate (x : val) (k : slot) (d : Dim) : exn + Dim :=
  match k with
  | Lbl k =>
      if Nat.ltb k (length (clusters d)) then
        inr (set_clusters d (alter (cm_incorporate x) k (clusters d)))
      else if Nat.eqb k (length (clusters d)) then
        inr (set_clusters d (clusters d ++ [cm_incorporate x cm_new]))
      else inl DimError
  | NaN => inl DimError
  end.

(** Modelled from the spec: [unincorporate(value, label)]. *)
Definition dim_unincorporate (x : val) (k : slot) (d : Dim) : exn + Dim :=
  match k with
  | Lbl k =>
      if Nat.ltb k (length (clusters d)) then
        inr (set_clusters d (alter (cm_unincorporate x) k (clusters d)))
      else inl DimError
  | NaN => inl DimError
  end.

(** Modelled from the spec: [bulk_unincorporate(label)], "delete the
    statistics for the vacated label and relabel counters consistently". *)
Definition dim_bulk_unincorporate (k : nat) (d : Dim) : exn + Dim :=
  if Nat.ltb k (length (clusters d)) then
    inr (set_clusters d (delete k (clusters d)))
  else inl DimError.

Definition slot_label (z : slot) : option nat :=
  match z with
  | Lbl k => Some k
  | NaN => None
  end.

(** Modelled from the spec: [bulk_incorporate(values, labels)], which
    rebuilds the clusters of the column under the given assignment: one
    cluster per label up to the largest, each value incorporated into the
    cluster of its row. *)
Definition dim_bulk_incorporate (xs : list val) (zs : list slot) (d : Dim)
  : exn + Dim :=
  match mapM slot_label zs with
  | Some ks =>
      if Nat.eqb (length xs) (length ks) then
        inr (set_clusters d
               (foldl (fun cs xk => alter (cm_incorporate xk.1) xk.2 cs)
                  (replicate (length (bincount ks)) cm_new) (zip xs ks)))
      else inl DimError
  | None => inl DimError
  end.

(** Modelled from the spec: [logpdf(value, label)], the predictive
    log-density of the value under the cluster, or under a fresh cluster
    when the label is the cluster count. *)
Definition dim_logpdf (x : val) (k : slot) (d : Dim) : exn + R :=
  match k with
  | Lbl k =>
      match clusters d !! k with
      | Some s => inr (cm_logpdf x s)
      | None =>
          if Nat.eqb k (length (clusters d)) then inr (cm_logpdf x cm_new)
          else inl DimError
      end
  | NaN => inl DimError
  end.

(** Modelled from the spec: [logpdf_marginal()], one marginal
    log-likelihood per cluster. *)
Definition dim_logpdf_marginal (d : Dim) : list R :=
  map cm_logpdf_marginal (clusters d).

(** Modelled from the spec: [simulate(label)]. *)
Definition dim_simulate (k : slot) (d : Dim) (g : gen) : exn + (val * gen) :=
  match k with
  | Lbl k =>
      match clusters d !! k with
      | Some s => inr (cm_simulate s g)
      | None =>
          if Nat.eqb k (length (clusters d)) then inr (cm_simulate cm_new g)
          else inl DimError
      end
  | NaN => inl DimError
  end.

(** A loop over the values of [self.dims] whose body mutates the Dim it
    visits and updates a local accumulator. The body gives the Dim as it
    leaves it and the new accumulator or the exception it raises; the loop
    stops at the first exception, what was mutated so far staying mutated. *)
Fixpoint dims_loop {A} (body : Dim -> A -> Dim * (exn + A))
    (ds : list (nat * Dim)) (a : A) : list (nat * Dim) * (exn + A) :=
  match ds with
  | [] => ([], inr a)
  | (c, d) :: ds' =>
      match body d a with
      | (d', inl e) => ((c, d') :: ds', inl e)
      | (d', inr a') =>
          let '(r, o) := dims_loop body ds' a' in ((c, d') :: r, o)
      end
  end.

(** A body that only calls one mutating method of the Dim. *)
Definition mutating (d : Dim) (r : exn + Dim) : Dim * (exn + unit) :=
  match r with
  | inl e => (d, inl e)
  | inr d' => (d', inr tt)
  end.

(** [self.dims[c]]. *)
Fixpoint dims_lookup (c : nat) (ds : list (nat * Dim)) : option Dim :=
  match ds with
  | [] => None
  | (c', d) :: ds' => if Nat.eqb c c' then Some d else dims_lookup c ds'
  end.

(** [self.dims[c] = d]. *)
Fixpoint dims_store (c : nat) (d : Dim) (ds : list (nat * Dim))
  : list (nat * Dim) :=
  match ds with
  | [] => [(c, d)]
  | (c', d') :: ds' =>
      if Nat.eqb c c' then (c, d) :: ds' else (c', d') :: dims_store c d ds'
  end.

(** [del self.dims[c]]. *)
Fixpoint dims_remove (c : nat) (ds : list (nat * Dim)) : list (nat * Dim) :=
  match ds with
  | [] => []
  | (c', d') :: ds' =>
      if Nat.eqb c c' then ds' else (c', d') :: dims_remove c ds'
  end.

End ColumnModel.
Arguments Dim : clear implicits.

(** ** The View *)

#[export] Instance Rlt_decision (x y : R) : Decision (x < y)%R := Rlt_dec x y.

Section View.
Context {val stat gen : Type}.
Context `{!ClusterModel val stat gen} `{!GeneralUtils gen}.

Record View : Type := mkView {
  X : list (list val);
  alpha_grid : list R;
  alpha : R;
  Zr : list slot;
  Nk : list Z;
  dims : list (nat * Dim stat);
  rng : gen
}.

Definition set_X (x : list (list val)) (st : View) : View :=
  mkView x (alpha_grid st) (alpha st) (Zr st) (Nk st) (dims st) (rng st).
Definition set_alpha (a : R) (st : View) : View :=
  mkView (X st) (alpha_grid st) a (Zr st) (Nk st) (dims st) (rng st).
Definition set_Zr (zr : list slot) (st : View) : View :=
  mkView (X st) (alpha_grid st) (alpha st) zr (Nk st) (dims st) (rng st).
Definition set_Nk (nk : list Z) (st : View) : View :=
  mkView (X st) (alpha_grid st) (alpha st) (Zr st) nk (dims st) (rng st).
Definition set_dims (ds : list (nat * Dim stat)) (st : View) : View :=
  mkView (X st) (alpha_grid st) (alpha st) (Zr st) (Nk st) ds (rng st).
Definition set_rng (g : gen) (st : View) : View :=
  mkView (X st) (alpha_grid st) (alpha st) (Zr st) (Nk st) (dims st) g.

Abbreviation Meth := (M View).

(** [for dim in self.dims.values(): body]; the body reads the View as it
    is when the loop starts (no body writes anything but its Dim). *)
Definition for_dims {A}
    (body : View -> Dim stat -> A -> Dim stat * (exn + A)) (a : A) : Meth A :=
  fun st =>
    match dims_loop (body st) (dims st) a with
    | (ds, inr a') => Ok a' (set_dims ds st)
    | (ds, inl e) => Raise e (set_dims ds st)
    end.

(** A draw from [self.rng]. *)
Definition draw {A} (f : gen -> A * gen) : Meth A :=
  fun st => let '(a, g) := f (rng st) in Ok a (set_rng g st).

(** [for x in l: acc = body(acc, x)]. *)
Fixpoint fold_each {A B} (body : B -> A -> Meth B) (l : list A) (b : B)
  : Meth B :=
  match l with
  | [] => ret b
  | x :: l' => b' <- body b x ;; fold_each body l' b'
  end.

(** *** Observe *)

Definition incorporate_dim (dim : Dim stat) (reassign : bool) : Meth R :=
  modify (fun st => set_dims (dims_store (index dim) dim (dims st)) st) ;;
  dim <- (if reassign then
            st <- get ;;
            col <- orraise IndexError (X_col (X st) (index dim)) ;;
            match dim_bulk_incorporate col (Zr st) dim with
            | inl e => raise e
            | inr dim' =>
                modify (fun st =>
                  set_dims (dims_store (index dim) dim' (dims st)) st) ;;
                ret dim'
            end
          else ret dim) ;;
  ret (sumR (dim_logpdf_marginal dim)).

Definition unincorporate_dim (dim : Dim stat) : Meth R :=
  ds <- gets dims ;;
  _ <- orraise KeyError (dims_lookup (index dim) ds) ;;
  modify (set_dims (dims_remove (index dim) ds)) ;;
  ret (sumR (dim_logpdf_marginal dim)).

Definition incorporate_row_with
    (transition_rows : option (list nat) -> Meth unit)
    (rowid : nat) (k : option nat) : Meth unit :=
  (* k = 0 if k is None else k *)
  let k := match k with None => Some 0 | Some j => Some j end in
  (* transition = [rowid] if k is None else [] *)
  let transition := match k with None => [rowid] | Some _ => [] end in
  k <- orraise TypeError k ;;
  for_dims (fun st dim _ =>
    match X_at (X st) rowid (index dim) with
    | None => (dim, inl IndexError)
    | Some x => mutating dim (dim_incorporate x (Lbl k) dim)
    end) tt ;;
  nk <- gets Nk ;;
  (if Nat.eqb k (length nk) then modify (set_Nk (nk ++ [0%Z])) else ret tt) ;;
  nk <- gets Nk ;;
  n <- orraise IndexError (nk !! k) ;;
  modify (set_Nk (<[k := (n + 1)%Z]> nk)) ;;
  zr <- gets Zr ;;
  (if Nat.eqb rowid (length zr) then modify (set_Zr (zr ++ [Lbl 0]))
   else ret tt) ;;
  zr <- gets Zr ;;
  _ <- orraise IndexError (zr !! rowid) ;;
  modify (set_Zr (<[rowid := Lbl k]> zr)) ;;
  transition_rows (Some transition).

(** [i-1 if i>k else i]. *)
Definition relabel (k : nat) (i : slot) : slot :=
  if py_gt i k then
    match i with
    | Lbl j => Lbl (j - 1)
    | NaN => NaN
    end
  else i.

Definition unincorporate_row (rowid : nat) : Meth unit :=
  for_dims (fun st dim _ =>
    match X_at (X st) rowid (index dim) with
    | None => (dim, inl IndexError)
    | Some x =>
        match Zr st !! rowid with
        | None => (dim, inl IndexError)
        | Some z => mutating dim (dim_unincorporate x z dim)
        end
    end) tt ;;
  zr <- gets Zr ;;
  z <- orraise IndexError (zr !! rowid) ;;
  k <- orraise TypeError (slot_label z) ;;
  nk <- gets Nk ;;
  n <- orraise IndexError (nk !! k) ;;
  modify (set_Nk (<[k := (n - 1)%Z]> nk)) ;;
  (if Z.eqb (n - 1) 0 then
     modify (fun st => set_Zr (map (relabel k) (Zr st)) st) ;;
     modify (fun st => set_Nk (delete k (Nk st)) st) ;;
     for_dims (fun _ dim _ => mutating dim (dim_bulk_unincorporate k dim)) tt
   else ret tt) ;;
  modify (fun st => set_Zr (<[rowid := NaN]> (Zr st)) st).

(** *** Accounting *)

Definition set_dataset (x : list (list val)) : Meth unit :=
  modify (set_X x).

Definition reindex_dims : Meth unit :=
  modify (fun st =>
    set_dims
      (foldl (fun dims cd => dims_store (index cd.2) cd.2 dims) [] (dims st))
      st).

Definition reindex_rows : Meth unit :=
  modify (fun st =>
    set_Zr (List.filter (fun z => negb (isnan z)) (Zr st)) st) ;;
  st <- get ;;
  assert AssertRowCount (Nat.eqb (length (Zr st)) (length (X st))).

(** *** Inference *)

Definition transition_alpha : Meth unit :=
  st <- get ;;
  let logps :=
    map (fun alpha => logp_crp_unorm (length (Zr st)) (length (Nk st)) alpha)
      (alpha_grid st) in
  index <- draw (log_pflip logps) ;;
  a <- orraise IndexError (alpha_grid st !! index) ;;
  modify (set_alpha a).

Definition transition_rows_with (_transition_row : nat -> Meth unit)
    (rows : option (list nat)) : Meth unit :=
  rows <- match rows with
          | None => gets (fun st => seq 0 (length (Zr st)))
          | Some rows => ret rows
          end ;;
  for_each _transition_row rows.

(** *** Internal *)

Definition _logpdf_row (rowid k : nat) : Meth R :=
  nk <- gets Nk ;;
  assert AssertLabelInRange (Nat.leb k (length nk)) ;;
  for_dims (fun st dim logp =>
    match X_at (X st) rowid (index dim) with
    | None => (dim, inl IndexError)
    | Some x =>
        match Zr st !! rowid with
        | None => (dim, inl IndexError)
        | Some z =>
            if py_eq z (Lbl k) then
              match dim_unincorporate x (Lbl k) dim with
              | inl e => (dim, inl e)
              | inr dim1 =>
                  match dim_logpdf x (Lbl k) dim1 with
                  | inl e => (dim1, inl e)
                  | inr l =>
                      match dim_incorporate x (Lbl k) dim1 with
                      | inl e => (dim1, inl e)
                      | inr dim2 => (dim2, inr (logp + l)%R)
                      end
                  end
              end
            else
              match dim_logpdf x (Lbl k) dim with
              | inl e => (dim, inl e)
              | inr l => (dim, inr (logp + l)%R)
              end
        end
    end) 0%R.

Definition _check_partitions : Meth unit :=
  st <- get ;;
  assert AssertAlphaPositive (bool_decide (0 < alpha st)%R) ;;
  assert AssertPartitionSize
    (Z.eqb (sumZ (Nk st)) (Z.of_nat (length (Zr st)))).

(** The candidate data log-likelihoods of [_transition_row]: the existing
    clusters, then the auxiliary ones ([logp_data] once extended). *)
Definition _transition_row_logp_data (rowid m : nat) : Meth (list R) :=
  nk <- gets Nk ;;
  logp_data <- comprehension (_logpdf_row rowid) (seq 0 (length nk)) ;;
  st <- get ;;
  z <- orraise IndexError (Zr st !! rowid) ;;
  k0 <- orraise TypeError (slot_label z) ;;
  n <- orraise IndexError (Nk st !! k0) ;;
  let m_aux := if Z.eqb n 1 then seq 0 (m - 1) else seq 0 m in
  logp_data_aux <-
    comprehension (fun _ => _logpdf_row rowid (length (Nk st))) m_aux ;;
  ret (logp_data ++ logp_data_aux).

Definition _transition_row_with
    (incorporate_row : nat -> option nat -> Meth unit)
    (rowid m : nat) : Meth unit :=
  zr <- gets Zr ;;
  z <- orraise IndexError (zr !! rowid) ;;
  (* Skip unincorporated rows. *)
  if py_eq z NaN then ret tt else
  logp_data <- _transition_row_logp_data rowid m ;;
  st <- get ;;
  let logp_crp := logp_crp_gibbs (Nk st) (Zr st) rowid (alpha st) m in
  assert AssertCandidateLengths
    (Nat.eqb (length logp_data) (length logp_crp)) ;;
  let p_cluster := zip_with Rplus logp_data logp_crp in
  z_b <- draw (log_pflip p_cluster) ;;
  zr <- gets Zr ;;
  z <- orraise IndexError (zr !! rowid) ;;
  (if negb (py_eq (Lbl z_b) z) then
     unincorporate_row rowid ;;
     incorporate_row rowid (Some z_b)
   else ret tt) ;;
  _check_partitions.

(** [incorporate_row], [transition_rows] and [_transition_row] call one
    another; the cycle is unrolled by call depth, the interpreter raising
    at its recursion limit. *)
Fixpoint incorporate_row_at (depth : nat) (rowid : nat) (k : option nat)
  : Meth unit :=
  match depth with
  | 0 => raise RuntimeError
  | S depth' =>
      incorporate_row_with
        (transition_rows_with
           (fun r => _transition_row_with (incorporate_row_at depth') r 1))
        rowid k
  end.

Definition recursion_limit : nat := 1000.

Definition _transition_row (rowid m : nat) : Meth unit :=
  _transition_row_with (incorporate_row_at recursion_limit) rowid m.

Definition transition_rows (rows : option (list nat)) : Meth unit :=
  transition_rows_with (fun r => _transition_row r 1) rows.

Definition incorporate_row (rowid : nat) (k : option nat) : Meth unit :=
  incorporate_row_with transition_rows rowid k.


(** *** logpdf *)

Definition _is_hypothetical (rowid : Z) : Meth bool :=
  zr <- gets Zr ;;
  ret (negb (Z.leb 0 rowid && Z.ltb rowid (Z.of_nat (length zr)))).

Definition _logpdf_observed (rowid : nat) (query : list (nat * val))
    (evidence : list (nat * val)) : Meth R :=
  fold_each (fun logpdf cv =>
    zr <- gets Zr ;;
    k <- orraise IndexError (zr !! rowid) ;;
    ds <- gets dims ;;
    dim <- orraise KeyError (dims_lookup cv.1 ds) ;;
    match dim_logpdf cv.2 k dim with
    | inl e => raise e
    | inr l => ret (logpdf + l)%R
    end) query 0%R.

Definition _compute_cluster_crp_logps : Meth (list R) :=
  st <- get ;;
  let log_crp_numer := map ln (map IZR (Nk st) ++ [alpha st]) in
  let total := (INR (length (Zr st)) + alpha st)%R in
  (* math.log raises on a non-positive argument *)
  (if bool_decide (0 < total)%R then ret tt else raise ValueError) ;;
  let logp_crp_denom := ln total in
  ret (map (fun x => (x - logp_crp_denom)%R) log_crp_numer).

Definition _compute_cluster_data_logps (col : nat) (x : val) : Meth (list R) :=
  ds <- gets dims ;;
  dim <- orraise KeyError (dims_lookup col ds) ;;
  comprehension (fun k =>
    ds <- gets dims ;;
    dim <- orraise KeyError (dims_lookup col ds) ;;
    match dim_logpdf x (Lbl k) dim with
    | inl e => raise e
    | inr l => ret l
    end) (seq 0 (length (clusters dim) + 1)).

(** [acc = np.zeros(n); for (col, val) in cvs: acc += data_logps(col, val)]. *)
Definition cluster_data_logps_sum (n : nat) (cvs : list (nat * val))
  : Meth (list R) :=
  fold_each (fun acc cv =>
    l <- _compute_cluster_data_logps cv.1 cv.2 ;;
    orraise ValueError (np_iadd acc l)) cvs (replicate n 0%R).

Definition _logpdf_hypothetical (query evidence : list (nat * val)) : Meth R :=
  logp_crp <- _compute_cluster_crp_logps ;;
  logp_evidence <- cluster_data_logps_sum (length logp_crp) evidence ;;
  s <- orraise ValueError (np_add logp_crp logp_evidence) ;;
  let logp_cluster := log_normalize s in
  (* Query densities. *)
  logp_query <- cluster_data_logps_sum (length logp_crp) query ;;
  t <- orraise ValueError (np_add logp_query logp_cluster) ;;
  ret (logsumexp t).

Definition logpdf (rowid : Z) (query evidence : list (nat * val)) : Meth R :=
  h <- _is_hypothetical rowid ;;
  if h then _logpdf_hypothetical query evidence
  else _logpdf_observed (Z.to_nat rowid) query evidence.

Definition logpdf_marginal : Meth R :=
  st <- get ;;
  ret (logp_crp (length (Zr st)) (Nk st) (alpha st)
       + sumR (map (fun cd => sumR (dim_logpdf_marginal cd.2)) (dims st)))%R.

(** *** simulate *)

(** [x = self.dims[col].simulate(k)], drawing from the random source. An
    entry of a sample is a simulated value, or the cluster label when the
    caller asks for it. *)
Definition dim_draw (k : slot) (col : nat) : Meth (val + nat) :=
  ds <- gets dims ;;
  dim <- orraise KeyError (dims_lookup col ds) ;;
  g <- gets rng ;;
  match dim_simulate k dim g with
  | inl e => raise e
  | inr (x, g') => modify (set_rng g') ;; ret (inl x)
  end.

Definition _simulate_observed (rowid : nat) (query : list nat)
    (evidence : list (nat * val)) (N : nat) : Meth (list (list (val + nat))) :=
  comprehension (fun _ =>
    comprehension (fun col =>
      zr <- gets Zr ;;
      k <- orraise IndexError (zr !! rowid) ;;
      dim_draw k col) query) (seq 0 N).

Definition _simulate_hypothetical (query : list nat)
    (evidence : list (nat * val)) (N : nat) (cluster : bool)
  : Meth (list (list (val + nat))) :=
  (* CRP densities. *)
  logp_crp <- _compute_cluster_crp_logps ;;
  (* Evidence densities. *)
  logp_evidence <- cluster_data_logps_sum (length logp_crp) evidence ;;
  s <- orraise ValueError (np_add logp_crp logp_evidence) ;;
  let cluster_logps := log_normalize s in
  comprehension (fun _ =>
    (* log_pflip is called without rng here: the one random source of the
       embedding stands for the default generator as well *)
    k <- draw (log_pflip cluster_logps) ;;
    d <- comprehension (dim_draw (Lbl k)) query ;;
    ret (if cluster then d ++ [inr k] else d)) (seq 0 N).

Definition simulate (rowid : Z) (query : list nat)
    (evidence : list (nat * val)) (N : nat) : Meth (list (list (val + nat))) :=
  h <- _is_hypothetical rowid ;;
  if h then _simulate_hypothetical query evidence N false
  else _simulate_observed (Z.to_nat rowid) query evidence N.

(** *** Construction *)

Definition __init__ (X : list (list val)) (dims : list (Dim stat))
    (alpha : option R) (Zr : option (list nat)) (rng : gen) : exn + View :=
  (* 1./len(self.X) *)
  if Nat.eqb (length X) 0 then inl ZeroDivisionError else
  let alpha_grid :=
    log_linspace (1 / INR (length X)) (INR (length X)) 30 in
  let '(alpha, rng) :=
    match alpha with
    | None => rng_choice alpha_grid rng
    | Some a => (a, rng)
    end in
  let '(Zr, rng) :=
    match Zr with
    | None => simulate_crp (length X) alpha rng
    | Some zr => (zr, rng)
    end in
  let self := mkView X alpha_grid alpha (map Lbl Zr) (bincount Zr) [] rng in
  match for_each (fun dim => incorporate_dim dim true ;; ret tt) dims self with
  | Ok _ self => inr self
  | Raise e _ => inl e
  end.

End View.
Arguments View : clear implicits.

(** *** Inference over the column models *)

(** Modelled from the spec: [transition_hypers] of class Dim, which is not
    among the sources: the "in-place hyperparameter resampling" of a column
    model, "opaque to this component beyond invoking it". It may draw from
    the random source and gives the Dim as resampled, or fails. *)
Class HyperModel (stat gen : Type) : Type := {
  dim_transition_hypers : Dim stat -> gen -> exn + (Dim stat * gen)
}.

Section Inference.
Context {val stat gen : Type}.
Context `{!ClusterModel val stat gen} `{!GeneralUtils gen}.
Context `{!HyperModel stat gen}.

Definition transition_column_hypers (cols : option (list nat))
  : M (View val stat gen) unit :=
  cols <- match cols with
          | None => gets (fun st => map fst (dims st))
          | Some cols => ret cols
          end ;;
  for_each (fun c =>
    st <- get ;;
    dim <- orraise KeyError (dims_lookup c (dims st)) ;;
    match dim_transition_hypers dim (rng st) with
    | inl e => raise e
    | inr (dim', g) =>
        modify (fun st => set_rng g (set_dims (dims_store c dim' (dims st)) st))
    end) cols.

Definition transition (N : nat) : M (View val stat gen) unit :=
  for_each (fun _ =>
    transition_rows None ;;
    transition_alpha ;;
    transition_column_hypers None) (seq 0 N).

End Inference.

(** ** A concrete column family and random source

    Integer data; a cluster keeps the values it holds; the random source is a
    tape of raw draws. The methods are run on these in the examples. *)
Module Example.

Fixpoint remove_one (x : Z) (s : list Z) : list Z :=
  match s with
  | [] => []
  | y :: s' => if Z.eqb x y then s' else y :: remove_one x s'
  end.

#[export] Instance values_model : ClusterModel Z (list Z) (list nat) := {|
  cm_new := [];
  cm_incorporate x s := x :: s;
  cm_unincorporate x s := remove_one x s;
  cm_logpdf x s :=
    ln (INR (S (length (List.filter (Z.eqb x) s))) / INR (S (S (length s))));
  cm_logpdf_marginal s := 0%R;
  cm_simulate s g := (hd 0%Z s, g)
|}.

(** Modelled from the spec: [gu.logp_crp_gibbs], "for each existing cluster,
    log(size); for each auxiliary slot, log(concentration / m)", with [m - 1]
    auxiliary slots when the row is alone in its cluster. *)
Definition crp_gibbs (Nk : list Z) (Zr : list slot) (i : nat) (alpha : R)
    (m : nat) : list R :=
  let n :=
    match Zr !! i with
    | Some (Lbl k) => default 0%Z (Nk !! k)
    | _ => 0%Z
    end in
  map (fun n => ln (IZR n)) Nk
  ++ replicate (if Z.eqb n 1 then m - 1 else m) (ln (alpha / INR m)).

#[export] Instance tape_utils : GeneralUtils (list nat) := {|
  rng_choice l g := (nth (hd 0 g mod length l) l 1%R, tl g);
  log_pflip l g := (hd 0 g mod length l, tl g);
  simulate_crp n a g := (replicate n 0, g);
  logp_crp n nk a := 0%R;
  logp_crp_unorm n k a := (INR k * ln a)%R;
  logp_crp_gibbs := crp_gibbs
|}.

Definition view : Type := View Z (list Z) (list nat).

(** Two clusters of one row each, one column, and a tape whose next draw
    is 1. *)
Definition two_singletons : view :=
  mkView [[10%Z]; [20%Z]; [30%Z]] [1%R] 1%R [Lbl 0; Lbl 1] [1%Z; 1%Z]
    [(0, mkDim 0 [[10%Z]; [20%Z]])] [1; 1; 1].

(** Row 1 vacated: its slot holds nan. *)
Definition one_vacant : view :=
  mkView [[10%Z]; [20%Z]] [1%R] 1%R [Lbl 0; NaN] [1%Z]
    [(0, mkDim 0 [[10%Z]])] [0; 0].

(** The assignment [0,1,1,1,2]: row 0 is alone in cluster 0. *)
Definition five_rows : view :=
  mkView [[1%Z]; [2%Z]; [3%Z]; [4%Z]; [5%Z]] [1%R] 1%R
    [Lbl 0; Lbl 1; Lbl 1; Lbl 1; Lbl 2] [1%Z; 3%Z; 1%Z]
    [(0, mkDim 0 [[1%Z]; [4%Z; 3%Z; 2%Z]; [5%Z]])] [0].

(** The assignment [0,0,1,1,1,2]: cluster 0 has two rows. *)
Definition six_rows : view :=
  mkView [[1%Z]; [2%Z]; [3%Z]; [4%Z]; [5%Z]; [6%Z]] [1%R] 1%R
    [Lbl 0; Lbl 0; Lbl 1; Lbl 1; Lbl 1; Lbl 2] [2%Z; 3%Z; 1%Z]
    [(0, mkDim 0 [[2%Z; 1%Z]; [5%Z; 4%Z; 3%Z]; [6%Z]])] [0].

(** The View the constructor builds from two rows of one column, the
    partition [0, 1] and concentration 1. *)
Definition built : view :=
  mkView [[10%Z]; [20%Z]] (log_linspace (1 / INR 2) (INR 2) 30) 1%R
    [Lbl 0; Lbl 1] [1%Z; 1%Z] [(0, mkDim 0 [[10%Z]; [20%Z]])] [0; 1].

(** [built] once row 1 has been unincorporated. *)
Definition built_vacated : view :=
  mkView [[10%Z]; [20%Z]] (log_linspace (1 / INR 2) (INR 2) 30) 1%R
    [Lbl 0; NaN] [1%Z] [(0, mkDim 0 [[10%Z]])] [0; 1].

End Example.

(** * What is proved of the View *)

(** The number of entries of a list that pass a test. *)
Definition countb {A} (p : A -> bool) (l : list A) : nat :=
  length (List.filter p l).

(** The number of rows holding label [k]. *)
Definition count_lbl (k : nat) (zr : list slot) : nat :=
  countb (fun z => py_eq z (Lbl k)) zr.

(** The number of assigned (non-nan) rows. *)
Definition assigned (zr : list slot) : nat :=
  countb (fun z => negb (isnan z)) zr.

(** The label of a slot is below [n]. *)
Definition below (n : nat) (z : slot) : bool :=
  match z with
  | Lbl k => Nat.ltb k n
  | NaN => false
  end.

(** The ledger agrees with the assignment: every counter of [Nk] is the
    number of rows holding its label, and every label held has a counter. *)
Definition ledger_ok (zr : list slot) (nk : list Z) : Prop :=
  (forall k, k < length nk -> nk !! k = Some (Z.of_nat (count_lbl k zr))) /\
  (forall i k, zr !! i = Some (Lbl k) -> k < length nk).

(** The accounting invariant as the specification words it: the cluster
    sizes add up to the number of assigned rows, and a label in use has a
    positive size. *)
Definition partition_invariant (zr : list slot) (nk : list Z) : Prop :=
  sumZ nk = Z.of_nat (assigned zr) /\
  (forall i k, zr !! i = Some (Lbl k) ->
     exists n, nk !! k = Some n /\ (0 < n)%Z).

(** What a run promises: [Q] of the value and View it returns with, [E] of
    the exception and View it raises with. *)
Definition post {S A} (Q : A -> S -> Prop) (E : exn -> S -> Prop)
    (o : outcome S A) : Prop :=
  match o with
  | Ok a s => Q a s
  | Raise e s => E e s
  end.

Section Specification.
Context {val stat gen : Type}.
Context `{!ClusterModel val stat gen} `{!GeneralUtils gen}.

(** The method returns or raises, the View being afterwards what it was. *)
Definition leaves_unchanged {A} (c : M (View val stat gen) A)
    (st : View val stat gen) : Prop :=
  (exists a, c st = Ok a st) \/ (exists e, c st = Raise e st).

(** Everything but the column models is as it was. *)
Definition same_but_dims (st st' : View val stat gen) : Prop :=
  X st' = X st /\ alpha_grid st' = alpha_grid st /\ alpha st' = alpha st /\
  Zr st' = Zr st /\ Nk st' = Nk st /\ rng st' = rng st.

(** The ledger of a View agrees with its assignment. *)
Definition view_ledger (st : View val stat gen) : Prop :=
  ledger_ok (Zr st) (Nk st).

(** A column model fits a dataset and a partition of [n] clusters: it has
    [n] clusters, and its column is one of every row of the dataset. *)
Definition dim_fits (X : list (list val)) (n : nat) (d : Dim stat) : Prop :=
  length (clusters d) = n /\ forall row, row ∈ X -> index d < length row.

(** Every attached column model fits the View. *)
Definition dims_fit (st : View val stat gen) : Prop :=
  Forall (fun cd => dim_fits (X st) (length (Nk st)) cd.2) (dims st).

(** A View in good order: ledger and column models agree with the
    assignment. *)
Definition view_ok (st : View val stat gen) : Prop :=
  view_ledger st /\ dims_fit st.

(** A column model once value [x] has left its cluster [k]. *)
Definition dim_without (k : nat) (x : val) (d : Dim stat) : Dim stat :=
  set_clusters d (alter (cm_unincorporate x) k (clusters d)).

(** A column model once value [x] has joined its cluster [k], a fresh one
    when [k] is the number of clusters. *)
Definition dim_with (k : nat) (x : val) (d : Dim stat) : Dim stat :=
  set_clusters d
    (if Nat.ltb k (length (clusters d))
     then alter (cm_incorporate x) k (clusters d)
     else clusters d ++ [cm_incorporate x cm_new]).

(** A column model once it has deleted its cluster [k]. *)
Definition dim_deleted (k : nat) (d : Dim stat) : Dim stat :=
  set_clusters d (delete k (clusters d)).

(** A change of a column model by the value of row [rowid] in its column. *)
Definition on_row (X : list (list val)) (rowid : nat)
    (f : val -> Dim stat -> Dim stat) (d : Dim stat) : Dim stat :=
  match X_at X rowid (index d) with
  | Some x => f x d
  | None => d
  end.

Definition map_dims (f : Dim stat -> Dim stat) (ds : list (nat * Dim stat))
  : list (nat * Dim stat) :=
  map (fun cd => (cd.1, f cd.2)) ds.

(** The View once row [rowid] has been given label [k]. *)
Definition incorporated (st : View val stat gen) (rowid k : nat)
  : View val stat gen :=
  let nk := if Nat.eqb k (length (Nk st)) then Nk st ++ [0%Z] else Nk st in
  let zr :=
    if Nat.eqb rowid (length (Zr st)) then Zr st ++ [Lbl 0] else Zr st in
  mkView (X st) (alpha_grid st) (alpha st)
    (<[rowid:=Lbl k]> zr)
    (<[k:=(default 0%Z (nk !! k) + 1)%Z]> nk)
    (map_dims (on_row (X st) rowid (dim_with k)) (dims st))
    (rng st).

(** The View once row [rowid] has left cluster [k] of size [n]: the cluster
    keeps its label if other rows remain, and is compacted away if not. *)
Definition unincorporated (st : View val stat gen) (rowid k : nat) (n : Z)
  : View val stat gen :=
  if Z.eqb (n - 1) 0 then
    mkView (X st) (alpha_grid st) (alpha st)
      (<[rowid:=NaN]> (map (relabel k) (Zr st)))
      (delete k (Nk st))
      (map_dims
         (fun d => dim_deleted k (on_row (X st) rowid (dim_without k) d))
         (dims st))
      (rng st)
  else
    mkView (X st) (alpha_grid st) (alpha st)
      (<[rowid:=NaN]> (Zr st))
      (<[k:=(n - 1)%Z]> (Nk st))
      (map_dims (on_row (X st) rowid (dim_without k)) (dims st))
      (rng st).

(** The label that label [j] becomes when cluster [k] is compacted away. *)
Definition compacted_label (k j : nat) : nat :=
  if Nat.ltb k j then j - 1 else j.

(** The contract of [gu.logp_crp_gibbs] that [_transition_row] asserts: one
    weight per existing cluster, then one per auxiliary slot, of which there
    are [m - 1] when the row is alone in its cluster and [m] otherwise. *)
Definition gibbs_weights_ok : Prop :=
  forall (nk : list Z) (zr : list slot) (i : nat) (a : R) (m k0 : nat) (n : Z),
    zr !! i = Some (Lbl k0) -> nk !! k0 = Some n ->
    length (logp_crp_gibbs nk zr i a m)
    = length nk + (if Z.eqb n 1 then m - 1 else m).

(** The contract of [gu.log_pflip]: the index drawn is one of the weights
    given. *)
Definition pflip_in_range : Prop :=
  forall (l : list R) (g : gen), l <> [] -> (log_pflip l g).1 < length l.

(** The contract of [rng.choice]: the element drawn is one of the list. *)
Definition choice_in_list : Prop :=
  forall (l : list R) (g : gen), l <> [] -> (rng_choice l g).1 ∈ l.

(** The calls a client makes on a View once it is built. *)
Inductive call : Type :=
| call_incorporate_row (rowid : nat) (k : option nat)
| call_unincorporate_row (rowid : nat)
| call_transition_rows (rows : option (list nat))
| call_transition_alpha
| call_incorporate_dim (dim : Dim stat) (reassign : bool)
| call_unincorporate_dim (dim : Dim stat)
| call_reindex_rows
| call_set_dataset (X : list (list val)).

Definition run (c : call) : M (View val stat gen) unit :=
  match c with
  | call_incorporate_row rowid k => incorporate_row rowid k
  | call_unincorporate_row rowid => unincorporate_row rowid
  | call_transition_rows rows => transition_rows rows
  | call_transition_alpha => transition_alpha
  | call_incorporate_dim dim reassign => incorporate_dim dim reassign ;; ret tt
  | call_unincorporate_dim dim => unincorporate_dim dim ;; ret tt
  | call_reindex_rows => reindex_rows
  | call_set_dataset X => set_dataset X
  end.

(** [incorporate_row] "adds a previously-unassigned or newly-appended row":
    the row is the next new index or its slot is vacant. *)
Definition unassigned (st : View val stat gen) (rowid : nat) : Prop :=
  rowid = length (Zr st) \/ Zr st !! rowid = Some NaN.

Definition admissible (st : View val stat gen) (c : call) : Prop :=
  match c with
  | call_incorporate_row rowid _ => unassigned st rowid
  | _ => True
  end.

(** The Views a client can hold: one the constructor returned, then one any
    admissible call returned with. *)
Inductive reachable : View val stat gen -> Prop :=
| reachable_init X dims alpha Zr rng st :
    __init__ X dims alpha Zr rng = inr st -> reachable st
| reachable_call st c st' :
    reachable st -> admissible st c -> run c st = Ok tt st' -> reachable st'.

(** The Views that any sequence of calls leads to from a given one, however
    each call ends. *)
Inductive reaches (st0 : View val stat gen) : View val stat gen -> Prop :=
| reaches_here : reaches st0 st0
| reaches_call st c : reaches st0 st -> reaches st0 (state_of (run c st)).

(** The concentration and its grid are what they were. *)
Definition same_concentration (st st' : View val stat gen) : Prop :=
  alpha_grid st' = alpha_grid st /\ alpha st' = alpha st.

(** The concentration of a View built with the given [alpha] argument: an
    element of the grid, or still the value supplied. *)
Definition concentration_from_grid (alpha0 : option R)
    (st : View val stat gen) : Prop :=
  match alpha0 with
  | None => alpha st ∈ alpha_grid st
  | Some a => alpha st ∈ alpha_grid st \/ alpha st = a
  end.

(** *** The marginal density of a hypothetical row, as specified *)

(** The clusters a hypothetical row may join: those in use, by label, then
    one singleton candidate. *)
Definition candidates (st : View val stat gen) : list nat :=
  seq 0 (length (Nk st) + 1).

(** The CRP prior log-weight of a candidate: the log of the size of a
    cluster in use, the log of the concentration for the singleton, less the
    log of the row count plus the concentration. *)
Definition crp_log_weight (st : View val stat gen) (k : nat) : R :=
  (match Nk st !! k with
   | Some n => ln (IZR n)
   | None => ln (alpha st)
   end - ln (INR (length (Zr st)) + alpha st))%R.

(** The predictive log-density of a column at a value, for a candidate. *)
Definition column_logpdf (st : View val stat gen) (cv : nat * val) (k : nat)
  : R :=
  match dims_lookup cv.1 (dims st) with
  | Some d =>
      match dim_logpdf cv.2 (Lbl k) d with
      | inr l => l
      | inl _ => 0%R
      end
  | None => 0%R
  end.

(** The sum, over the given columns, of their predictive log-densities for
    a candidate. *)
Definition data_loglik (st : View val stat gen) (cvs : list (nat * val))
    (k : nat) : R :=
  sumR (map (fun cv => column_logpdf st cv k) cvs).

(** The normalized log-posterior of a candidate given the evidence. *)
Definition cluster_log_posterior (st : View val stat gen)
    (evidence : list (nat * val)) (k : nat) : R :=
  (crp_log_weight st k + data_loglik st evidence k
   - logsumexp
       (map (fun j => crp_log_weight st j + data_loglik st evidence j)
          (candidates st)))%R.

(** The log-density of the query given the evidence, the cluster
    marginalized. *)
Definition marginal_logpdf (st : View val stat gen)
    (query evidence : list (nat * val)) : R :=
  logsumexp
    (map (fun k => data_loglik st query k + cluster_log_posterior st evidence k)
       (candidates st))%R.

(** The posterior probability of a candidate given the evidence. *)
Definition cluster_posterior (st : View val stat gen)
    (evidence : list (nat * val)) (k : nat) : R :=
  (exp (crp_log_weight st k + data_loglik st evidence k)
   / sumR (map (fun j => exp (crp_log_weight st j + data_loglik st evidence j))
             (candidates st)))%R.

End Specification.

(** ** Further notions *)

Section FurtherSpecification.
Context {val stat gen : Type}.
Context `{!ClusterModel val stat gen} `{!GeneralUtils gen}.

(** No slot of [Zr] is vacant. *)
Definition fully_assigned (st : View val stat gen) : Prop :=
  forall i, Zr st !! i <> Some NaN.

(** Everything but the random source is as it was. *)
Definition same_but_rng (st st' : View val stat gen) : Prop :=
  X st' = X st /\ alpha_grid st' = alpha_grid st /\ alpha st' = alpha st /\
  Zr st' = Zr st /\ Nk st' = Nk st /\ dims st' = dims st.

(** A column is attached to the View. *)
Definition attached (st : View val stat gen) (c : nat) : Prop :=
  is_Some (dims_lookup c (dims st)).

(** Every Dim is stored under its own index. *)
Definition keyed_by_index (ds : list (nat * Dim stat)) : Prop :=
  Forall (fun cd => cd.1 = index cd.2) ds.

(** The View once row [rowid] has moved from cluster [k0] of size [n] to the
    label [z_b]: vacated, then incorporated again. *)
Definition migrated (st : View val stat gen) (rowid k0 : nat) (n : Z)
    (z_b : nat) : View val stat gen :=
  incorporated (unincorporated st rowid k0 n) rowid z_b.

End FurtherSpecification.

(** * Properties *)

(** ** Counting rows *)

#[local] Arguments countb : simpl never.

Lemma countb_cons {A} (p : A -> bool) x l :
  countb p (x :: l) = (if p x then 1 else 0) + countb p l.
Proof. unfold countb; cbn. by destruct (p x). Qed.

Lemma countb_app {A} (p : A -> bool) l1 l2 :
  countb p (l1 ++ l2) = countb p l1 + countb p l2.
Proof. unfold countb. by rewrite List.filter_app, length_app. Qed.

Lemma countb_ext {A} (p q : A -> bool) l :
  (forall i x, l !! i = Some x -> p x = q x) -> countb p l = countb q l.
Proof.
  induction l as [|x l IH]; intros H; [done|].
  rewrite !countb_cons, (H 0 x eq_refl), IH; [done|].
  intros i y Hy. by apply (H (S i)).
Qed.

Lemma countb_insert {A} (p : A -> bool) l i x y :
  l !! i = Some y ->
  countb p (<[i:=x]> l) + (if p y then 1 else 0)
  = countb p l + (if p x then 1 else 0).
Proof.
  revert i. induction l as [|z l IH]; intros [|i] H; simpl in H; try done.
  - injection H as ->. simpl. rewrite !countb_cons.
    destruct (p x), (p y); lia.
  - simpl. rewrite !countb_cons. specialize (IH i H). revert IH.
    destruct (p x), (p y), (p z); lia.
Qed.

Lemma countb_pos {A} (p : A -> bool) l i x :
  l !! i = Some x -> p x = true -> 0 < countb p l.
Proof.
  revert i. induction l as [|z l IH]; intros [|i] H Hp; simpl in H; try done.
  - injection H as ->. rewrite countb_cons, Hp. lia.
  - rewrite countb_cons. specialize (IH i H Hp). lia.
Qed.

Lemma countb_zero {A} (p : A -> bool) l i x :
  countb p l = 0 -> l !! i = Some x -> p x = false.
Proof.
  intros H0 Hx. destruct (p x) eqn:Hp; [|done].
  pose proof (countb_pos p l i x Hx Hp). lia.
Qed.

Lemma countb_filter {A} (p q : A -> bool) l :
  countb p (List.filter q l) = countb (fun x => q x && p x) l.
Proof.
  induction l as [|x l IH]; [done|].
  rewrite (countb_cons _ x l). change (List.filter q (x :: l))
    with (if q x then x :: List.filter q l else List.filter q l).
  destruct (q x) eqn:Hq; rewrite ?countb_cons, IH; done.
Qed.

Lemma countb_map {A B} (p : B -> bool) (f : A -> B) l :
  countb p (map f l) = countb (fun x => p (f x)) l.
Proof.
  induction l as [|x l IH]; [done|].
  change (map f (x :: l)) with (f x :: map f l). by rewrite !countb_cons, IH.
Qed.

Lemma countb_split {A} (p q r : A -> bool) l :
  (forall x, (if p x then 1 else 0)
             = (if q x then 1 else 0) + (if r x then 1 else 0)) ->
  countb p l = countb q l + countb r l.
Proof.
  intros H. induction l as [|x l IH]; [done|].
  rewrite !countb_cons, IH, (H x). destruct (q x), (r x); lia.
Qed.

(** How many rows hold a label once the labels above [k] have moved down. *)
Lemma count_lbl_relabel k j zr :
  count_lbl j (map (relabel k) zr) =
    if Nat.ltb j k then count_lbl j zr
    else if Nat.eqb j k then count_lbl k zr + count_lbl (S k) zr
    else count_lbl (S j) zr.
Proof.
  unfold count_lbl. rewrite countb_map.
  destruct (Nat.ltb j k) eqn:E1; [|destruct (Nat.eqb j k) eqn:E2].
  - apply Nat.ltb_lt in E1. apply countb_ext. intros _ [i|] _; [|done].
    unfold relabel, py_gt, py_eq.
    destruct (Nat.ltb k i) eqn:E; [apply Nat.ltb_lt in E|apply Nat.ltb_ge in E].
    + destruct (Nat.eqb_spec (i - 1) j), (Nat.eqb_spec i j); try done; lia.
    + done.
  - apply Nat.eqb_eq in E2. subst j. apply countb_split. intros [i|]; [|done].
    unfold relabel, py_gt, py_eq.
    destruct (Nat.ltb k i) eqn:E; [apply Nat.ltb_lt in E|apply Nat.ltb_ge in E].
    + destruct (Nat.eqb_spec (i - 1) k), (Nat.eqb_spec i k),
        (Nat.eqb_spec i (S k)); lia.
    + destruct (Nat.eqb_spec i k), (Nat.eqb_spec i (S k)); lia.
  - apply Nat.ltb_ge in E1. apply Nat.eqb_neq in E2.
    apply countb_ext. intros _ [i|] _; [|done].
    unfold relabel, py_gt, py_eq.
    destruct (Nat.ltb k i) eqn:E; [apply Nat.ltb_lt in E|apply Nat.ltb_ge in E].
    + destruct (Nat.eqb_spec (i - 1) j), (Nat.eqb_spec i (S j)); lia.
    + destruct (Nat.eqb_spec i j), (Nat.eqb_spec i (S j)); lia.
Qed.

Lemma countb_none {A} (p : A -> bool) l :
  (forall i x, l !! i = Some x -> p x = false) -> countb p l = 0.
Proof.
  intros H. rewrite (countb_ext p (fun _ => false) l H). clear H.
  induction l as [|x l IH]; [done|]. by rewrite countb_cons, IH.
Qed.

(** ** Sums of counters *)

Lemma sumZ_app l1 l2 : sumZ (l1 ++ l2) = (sumZ l1 + sumZ l2)%Z.
Proof. induction l1 as [|x l1 IH]; simpl; [done|]. rewrite IH. lia. Qed.

Lemma sumZ_map_add {A} (f g : A -> Z) l :
  sumZ (map (fun x => (f x + g x)%Z) l)
  = (sumZ (map f l) + sumZ (map g l))%Z.
Proof. induction l as [|x l IH]; simpl; [done|]. rewrite IH. lia. Qed.

Lemma sumZ_map_zero {A} (l : list A) : sumZ (map (fun _ => 0%Z) l) = 0%Z.
Proof. induction l as [|x l IH]; simpl; [done|]. by rewrite IH. Qed.

Lemma sumZ_insert l i x y :
  l !! i = Some y -> sumZ (<[i:=x]> l) = (sumZ l - y + x)%Z.
Proof.
  revert i. induction l as [|z l IH]; intros [|i] H; simpl in *; try done.
  - injection H as ->. lia.
  - rewrite (IH i H). lia.
Qed.

Lemma sumZ_delete l i y :
  l !! i = Some y -> sumZ (delete i l) = (sumZ l - y)%Z.
Proof.
  revert i. induction l as [|z l IH]; intros [|i] H; simpl in *; try done.
  - injection H as ->. lia.
  - rewrite (IH i H). lia.
Qed.

Lemma sum_indicator z n :
  sumZ (map (fun k => if py_eq z (Lbl k) then 1%Z else 0%Z) (seq 0 n))
  = if below n z then 1%Z else 0%Z.
Proof.
  induction n as [|n IH].
  - simpl. by destruct z.
  - rewrite seq_S, map_app, sumZ_app, IH. simpl.
    destruct z as [i|]; simpl; [|done].
    destruct (Nat.ltb_spec i n), (Nat.ltb_spec i (S n)),
      (Nat.eqb_spec i n); lia.
Qed.

Lemma sum_counts n zr :
  sumZ (map (fun k => Z.of_nat (count_lbl k zr)) (seq 0 n))
  = Z.of_nat (countb (below n) zr).
Proof.
  induction zr as [|z zr IH].
  - apply sumZ_map_zero.
  - rewrite countb_cons, Nat2Z.inj_add, <- IH.
    rewrite (map_ext _ (fun k =>
      ((if py_eq z (Lbl k) then 1 else 0) + Z.of_nat (count_lbl k zr))%Z)).
    + rewrite sumZ_map_add, sum_indicator. by destruct (below n z).
    + intros k. unfold count_lbl. rewrite countb_cons.
      destruct (py_eq z (Lbl k)); lia.
Qed.

(** ** The ledger *)

Lemma ledger_ok_counters zr nk :
  ledger_ok zr nk ->
  nk = map (fun k => Z.of_nat (count_lbl k zr)) (seq 0 (length nk)).
Proof.
  intros [Hc _]. apply list_eq. intros i. rewrite list_lookup_fmap.
  destruct (decide (i < length nk)) as [Hi|Hi].
  - by rewrite (Hc i Hi), lookup_seq_lt.
  - rewrite lookup_seq_ge, lookup_ge_None_2 by lia. done.
Qed.

(** The cluster sizes add up to the number of assigned rows. *)
Lemma ledger_ok_sum zr nk :
  ledger_ok zr nk -> sumZ nk = Z.of_nat (assigned zr).
Proof.
  intros Hok. rewrite (ledger_ok_counters zr nk Hok) at 1.
  rewrite sum_counts. f_equal. apply countb_ext.
  intros i [k|] Hz; simpl; [|done].
  apply Nat.ltb_lt. destruct Hok as [_ Hl]. by eapply Hl.
Qed.

(** A label in use has a positive size. *)
Lemma ledger_ok_positive zr nk i k :
  ledger_ok zr nk -> zr !! i = Some (Lbl k) ->
  exists n, nk !! k = Some n /\ (0 < n)%Z.
Proof.
  intros [Hc Hl] Hz. eexists. split; [apply Hc; by eapply Hl|].
  assert (0 < count_lbl k zr); [|lia].
  eapply countb_pos; [exact Hz|]. simpl. apply Nat.eqb_refl.
Qed.

Lemma ledger_ok_invariant zr nk :
  ledger_ok zr nk -> partition_invariant zr nk.
Proof.
  intros Hok. split; [by apply ledger_ok_sum|].
  intros i k. by apply ledger_ok_positive.
Qed.

Lemma count_lbl_unused zr nk k :
  ledger_ok zr nk -> length nk <= k -> count_lbl k zr = 0.
Proof.
  intros [_ Hl] Hk. apply countb_none. intros i [j|] Hz; simpl; [|done].
  apply Nat.eqb_neq. specialize (Hl i j Hz). lia.
Qed.

Lemma count_lbl_eqb j k :
  py_eq (Lbl k) (Lbl j) = Nat.eqb j k.
Proof. simpl. apply Nat.eqb_sym. Qed.

(** Writing label [k] into an unassigned slot adds one row to cluster [k]
    and to no other. *)
Lemma count_lbl_assign zr rowid k j :
  rowid = length zr \/ zr !! rowid = Some NaN ->
  count_lbl j
    (<[rowid:=Lbl k]> (if Nat.eqb rowid (length zr) then zr ++ [Lbl 0] else zr))
  = count_lbl j zr + (if Nat.eqb j k then 1 else 0).
Proof.
  intros [->|Hz]; unfold count_lbl.
  - rewrite Nat.eqb_refl.
    pose proof (countb_insert (fun z => py_eq z (Lbl j)) (zr ++ [Lbl 0])
      (length zr) (Lbl k) (Lbl 0)) as H.
    rewrite lookup_app_r, Nat.sub_diag in H by lia. specialize (H eq_refl).
    rewrite countb_app, countb_cons, !count_lbl_eqb in H.
    change (countb _ []) with 0 in H. revert H.
    destruct (Nat.eqb j 0), (Nat.eqb j k); lia.
  - pose proof (lookup_lt_Some _ _ _ Hz) as Hlt.
    destruct (Nat.eqb_spec rowid (length zr)) as [?|_]; [lia|].
    pose proof (countb_insert (fun z => py_eq z (Lbl j)) zr rowid (Lbl k) NaN Hz)
      as H.
    cbv beta in H. rewrite count_lbl_eqb in H. revert H. simpl.
    destruct (Nat.eqb j k); lia.
Qed.

(** [incorporate_row] on the ledger. *)
Lemma ledger_ok_incorporate zr nk rowid k n :
  ledger_ok zr nk ->
  rowid = length zr \/ zr !! rowid = Some NaN ->
  (if Nat.eqb k (length nk) then nk ++ [0%Z] else nk) !! k = Some n ->
  ledger_ok
    (<[rowid:=Lbl k]> (if Nat.eqb rowid (length zr) then zr ++ [Lbl 0] else zr))
    (<[k:=(n + 1)%Z]> (if Nat.eqb k (length nk) then nk ++ [0%Z] else nk)).
Proof.
  intros Hok Hun Hn. pose proof Hok as [Hc Hl].
  set (nk1 := if Nat.eqb k (length nk) then nk ++ [0%Z] else nk) in *.
  assert (Hk : k < length nk1) by (by eapply lookup_lt_Some).
  assert (Hlen : length nk <= length nk1).
  { unfold nk1. destruct (Nat.eqb k (length nk)); rewrite ?length_app; lia. }
  assert (Hnk1 : forall j, j < length nk1 ->
            nk1 !! j = Some (Z.of_nat (count_lbl j zr))).
  { intros j Hj. unfold nk1 in *.
    destruct (Nat.eqb_spec k (length nk)) as [->|_]; [|by apply Hc].
    rewrite length_app in Hj; simpl in Hj.
    destruct (decide (j < length nk)) as [Hlt|Hge].
    - rewrite lookup_app_l by done. by apply Hc.
    - replace j with (length nk) by lia.
      rewrite lookup_app_r, Nat.sub_diag by lia. simpl.
      by rewrite (count_lbl_unused zr nk). }
  split.
  - intros j. rewrite length_insert. intros Hj.
    rewrite (count_lbl_assign zr rowid k j Hun).
    destruct (Nat.eqb_spec j k) as [->|Hne].
    + rewrite list_lookup_insert_eq by done.
      rewrite (Hnk1 k Hk) in Hn. injection Hn as <-. f_equal. lia.
    + rewrite list_lookup_insert_ne by done. rewrite (Hnk1 j Hj).
      f_equal. lia.
  - intros i j. rewrite length_insert. intros Hz.
    destruct (decide (i = rowid)) as [->|Hne].
    + assert (His : is_Some (<[rowid:=Lbl k]>
        (if Nat.eqb rowid (length zr) then zr ++ [Lbl 0] else zr) !! rowid))
        by (by eexists).
      apply lookup_lt_is_Some in His. rewrite length_insert in His.
      rewrite list_lookup_insert_eq in Hz by done. injection Hz as <-. done.
    + rewrite list_lookup_insert_ne in Hz by done.
      destruct (Nat.eqb_spec rowid (length zr)) as [->|_].
      * rewrite lookup_app_l in Hz.
        -- specialize (Hl i j Hz). lia.
        -- apply lookup_lt_Some in Hz. rewrite length_app in Hz; simpl in Hz.
           lia.
      * specialize (Hl i j Hz). lia.
Qed.

(** [unincorporate_row] on the ledger, the cluster keeping other rows. *)
Lemma ledger_ok_vacate zr nk rowid k n :
  ledger_ok zr nk ->
  zr !! rowid = Some (Lbl k) -> nk !! k = Some n ->
  ledger_ok (<[rowid:=NaN]> zr) (<[k:=(n - 1)%Z]> nk).
Proof.
  intros [Hc Hl] Hz Hn. split.
  - intros j. rewrite length_insert. intros Hj.
    pose proof (countb_insert (fun z => py_eq z (Lbl j)) zr rowid NaN (Lbl k) Hz)
      as H.
    cbv beta in H. rewrite count_lbl_eqb in H. simpl in H.
    fold (count_lbl j zr) in H.
    fold (count_lbl j (<[rowid:=NaN]> zr)) in H.
    destruct (Nat.eqb_spec j k) as [->|Hne].
    + rewrite list_lookup_insert_eq by done.
      rewrite (Hc k Hj) in Hn. injection Hn as <-. f_equal. lia.
    + rewrite list_lookup_insert_ne by done. rewrite (Hc j Hj). f_equal. lia.
  - intros i j. rewrite length_insert. intros Hz'.
    destruct (decide (i = rowid)) as [->|Hne].
    + rewrite list_lookup_insert_eq in Hz' by (by eapply lookup_lt_Some). done.
    + rewrite list_lookup_insert_ne in Hz' by done. by eapply Hl.
Qed.

(** [unincorporate_row] on the ledger, the row being the last of its
    cluster: the counter is deleted and the labels above it move down. *)
Lemma ledger_ok_compact zr nk rowid k n :
  ledger_ok zr nk ->
  zr !! rowid = Some (Lbl k) -> nk !! k = Some n -> (n - 1 = 0)%Z ->
  ledger_ok (<[rowid:=NaN]> (map (relabel k) zr))
    (delete k (<[k:=(n - 1)%Z]> nk)).
Proof.
  intros Hok Hz Hn Hn1. pose proof Hok as [Hc Hl].
  assert (Hk : k < length nk) by (by eapply lookup_lt_Some).
  assert (Hone : count_lbl k zr = 1).
  { rewrite (Hc k Hk) in Hn. injection Hn as <-. lia. }
  assert (Hlen : length (delete k (<[k:=(n - 1)%Z]> nk)) = length nk - 1).
  { rewrite length_delete, length_insert; [done|].
    apply lookup_lt_is_Some. by rewrite length_insert. }
  assert (Hmap : map (relabel k) zr !! rowid = Some (Lbl k)).
  { rewrite list_lookup_fmap, Hz. simpl. unfold relabel, py_gt.
    by rewrite Nat.ltb_irrefl. }
  assert (Hcount : forall j,
    count_lbl j (<[rowid:=NaN]> (map (relabel k) zr))
    = if Nat.ltb j k then count_lbl j zr else count_lbl (S j) zr).
  { intros j.
    pose proof (countb_insert (fun z => py_eq z (Lbl j)) _ rowid NaN (Lbl k)
      Hmap) as H.
    cbv beta in H. rewrite count_lbl_eqb in H. simpl in H.
    fold (count_lbl j (map (relabel k) zr)) in H.
    fold (count_lbl j (<[rowid:=NaN]> (map (relabel k) zr))) in H.
    rewrite count_lbl_relabel in H. revert H.
    destruct (Nat.ltb_spec j k), (Nat.eqb_spec j k); try lia.
    subst j. lia. }
  split.
  - intros j. rewrite Hlen. intros Hj. rewrite Hcount.
    destruct (Nat.ltb_spec j k) as [Hlt|Hge].
    + rewrite list_lookup_delete_lt by done.
      rewrite list_lookup_insert_ne by lia. apply Hc. lia.
    + rewrite list_lookup_delete_ge by done.
      rewrite list_lookup_insert_ne by lia. apply Hc. lia.
  - intros i j Hz'. rewrite Hlen.
    assert (Hin : 0 < count_lbl j (<[rowid:=NaN]> (map (relabel k) zr))).
    { eapply countb_pos; [exact Hz'|]. simpl. apply Nat.eqb_refl. }
    rewrite Hcount in Hin.
    destruct (Nat.ltb_spec j k) as [Hlt|Hge]; [lia|].
    destruct (decide (S j < length nk)) as [?|Hout]; [lia|].
    rewrite (count_lbl_unused zr nk (S j) Hok) in Hin; lia.
Qed.

(** [reindex_rows] on the ledger. *)
Lemma ledger_ok_reindex zr nk :
  ledger_ok zr nk ->
  ledger_ok (List.filter (fun z => negb (isnan z)) zr) nk.
Proof.
  intros [Hc Hl]. split.
  - intros j Hj. rewrite (Hc j Hj). do 2 f_equal. unfold count_lbl.
    rewrite countb_filter. apply countb_ext. by intros _ [i|] _.
  - intros i j Hz.
    assert (Hin : In (Lbl j) (List.filter (fun z => negb (isnan z)) zr)).
    { apply list_elem_of_In, list_elem_of_lookup. by exists i. }
    apply filter_In in Hin as [Hin _].
    apply list_elem_of_In, list_elem_of_lookup in Hin as [i' Hi'].
    by eapply Hl.
Qed.

(** The constructor's ledger: [np.bincount] of the starting partition. *)
Lemma ledger_ok_bincount zs : ledger_ok (map Lbl zs) (bincount zs).
Proof.
  induction zs as [|z zs IH].
  - split; intros ? ?; simpl in *; [lia|done].
  - pose proof IH as [Hc Hl]. simpl.
    set (c := bincount zs ++ replicate (S z - length (bincount zs)) 0%Z).
    assert (Hlen : length c = Nat.max (length (bincount zs)) (S z)).
    { unfold c. rewrite length_app, length_replicate. lia. }
    assert (Hcj : forall j, j < length c ->
              c !! j = Some (Z.of_nat (count_lbl j (map Lbl zs)))).
    { intros j Hj. unfold c.
      destruct (decide (j < length (bincount zs))) as [Hlt|Hge].
      - rewrite lookup_app_l by done. by apply Hc.
      - rewrite lookup_app_r by lia. rewrite lookup_replicate_2 by lia.
        by rewrite (count_lbl_unused _ _ j IH) by lia. }
    split.
    + intros j. rewrite length_alter. intros Hj.
      unfold count_lbl. rewrite countb_cons, count_lbl_eqb.
      fold (count_lbl j (map Lbl zs)).
      destruct (Nat.eqb_spec j z) as [->|Hne].
      * rewrite list_lookup_alter_eq, (Hcj z Hj). simpl. f_equal. lia.
      * rewrite list_lookup_alter_ne by done. by rewrite (Hcj j Hj).
    + intros [|i] j Hz; rewrite length_alter, Hlen; simpl in Hz.
      * injection Hz as <-. lia.
      * specialize (Hl i j Hz). lia.
Qed.

Section Properties.
Context {val stat gen : Type}.
Context `{!ClusterModel val stat gen} `{!GeneralUtils gen}.
Implicit Types (st : View val stat gen) (rowid k m : nat).

(** ** The method monad *)

Lemma bind_Ok {S A B} (c : M S A) (f : A -> M S B) s a s' :
  c s = Ok a s' -> bind c f s = f a s'.
Proof. unfold bind. intros ->. reflexivity. Qed.

Lemma bind_Raise {S A B} (c : M S A) (f : A -> M S B) s e s' :
  c s = Raise e s' -> bind c f s = Raise e s'.
Proof. unfold bind. intros ->. reflexivity. Qed.

#[local] Arguments Nat.eqb : simpl nomatch.
#[local] Arguments Nat.ltb : simpl nomatch.
#[local] Arguments Nat.leb : simpl nomatch.
#[local] Arguments Z.eqb : simpl nomatch.
#[local] Arguments Z.add : simpl nomatch.
#[local] Arguments Z.sub : simpl nomatch.
#[local] Arguments dim_incorporate : simpl never.
#[local] Arguments dim_unincorporate : simpl never.
#[local] Arguments dim_bulk_unincorporate : simpl never.
#[local] Arguments dim_bulk_incorporate : simpl never.
#[local] Arguments dim_logpdf : simpl never.
#[local] Arguments dim_simulate : simpl never.

(** The boolean tests of the code as propositions. *)
Ltac reflect_tests :=
  repeat match goal with
  | H : Nat.eqb _ _ = true |- _ => apply Nat.eqb_eq in H
  | H : Nat.eqb _ _ = false |- _ => apply Nat.eqb_neq in H
  | H : Nat.ltb _ _ = true |- _ => apply Nat.ltb_lt in H
  | H : Nat.ltb _ _ = false |- _ => apply Nat.ltb_ge in H
  | H : Nat.leb _ _ = true |- _ => apply Nat.leb_le in H
  | H : Nat.leb _ _ = false |- _ => apply Nat.leb_gt in H
  | H : Z.eqb _ _ = true |- _ => apply Z.eqb_eq in H
  | H : Z.eqb _ _ = false |- _ => apply Z.eqb_neq in H
  end.

(** One step of a method run symbolically: the next loop, lookup or test
    is split into its cases. *)
Ltac mstep :=
  cbn;
  match goal with
  | |- context [dims_loop ?b ?d ?a] =>
      let E := fresh "Eloop" in
      destruct (dims_loop b d a) as [? [?|?]] eqn:E
  | |- context [orraise _ ?o] =>
      let E := fresh "Elook" in destruct o eqn:E
  | |- context [if ?c then _ else _] =>
      let E := fresh "Etest" in destruct c eqn:E
  end; cbn.

(** A loop over no rows runs no body. *)
Lemma transition_rows_with_nil (f : nat -> M (View val stat gen) unit) st :
  transition_rows_with f (Some []) st = Ok tt st.
Proof. reflexivity. Qed.

(** The call depth never matters: the sweep that [incorporate_row] hands to
    [transition_rows] is over no row. *)
Lemma incorporate_row_at_depth depth rowid (ko : option nat) st :
  incorporate_row_at (S depth) rowid ko st = incorporate_row rowid ko st.
Proof. by destruct ko. Qed.

(** C2 (the code departs from the claim): with the label omitted,
    [incorporate_row] behaves exactly as with label 0 given and hands no row
    to the Gibbs kernel: nothing is drawn from the random source, and the row
    stays in cluster 0. *)
Theorem incorporate_row_omitted_label_stays_zero st rowid :
  incorporate_row rowid None st = incorporate_row rowid (Some 0) st /\
  rng (state_of (incorporate_row rowid None st)) = rng st /\
  match incorporate_row rowid None st with
  | Ok _ st' => Zr st' !! rowid = Some (Lbl 0)
  | Raise _ _ => True
  end.
Proof.
  split; [reflexivity|].
  unfold incorporate_row, incorporate_row_with, for_dims, bind.
  repeat mstep; repeat split; try done; reflect_tests.
  all: apply list_lookup_insert_eq; by eapply lookup_lt_Some.
Qed.

(** ** Reasoning on outcomes *)

Lemma post_Ok {S A} (Q : A -> S -> Prop) E a s : Q a s -> post Q E (Ok a s).
Proof. done. Qed.

Lemma post_Raise {S A} (Q : A -> S -> Prop) E e s :
  E e s -> post Q E (Raise e s).
Proof. done. Qed.

Lemma post_bind {S A B} (Q : B -> S -> Prop) E (c : M S A) (f : A -> M S B) s :
  post (fun a s' => post Q E (f a s')) E (c s) -> post Q E (bind c f s).
Proof. unfold bind. by destruct (c s). Qed.

Lemma post_mono {S A} (Q Q' : A -> S -> Prop) (E E' : exn -> S -> Prop) o :
  post Q E o ->
  (forall a s, Q a s -> Q' a s) -> (forall e s, E e s -> E' e s) ->
  post Q' E' o.
Proof. destruct o; simpl; auto. Qed.

(** One statement of a method taken off the front of a run. *)
Ltac wp1 :=
  lazymatch goal with
  | |- post _ _ (bind _ _ _) => apply post_bind
  | |- post _ _ (get _) => apply post_Ok; cbv beta
  | |- post _ _ (gets _ _) => apply post_Ok; cbv beta
  | |- post _ _ (modify _ _) => apply post_Ok; cbv beta
  | |- post _ _ (ret _ _) => apply post_Ok; cbv beta
  | |- post _ _ (raise _ _) => apply post_Raise; cbv beta
  | |- post _ _ (orraise _ ?o _) =>
      let E := fresh "Elook" in
      destruct o eqn:E; [apply post_Ok|apply post_Raise]; cbv beta
  | |- post _ _ (assert _ ?c _) =>
      let E := fresh "Etest" in
      destruct c eqn:E; [apply post_Ok|apply post_Raise]; cbv beta
  | |- post _ _ ((if ?c then _ else _) _) =>
      let E := fresh "Etest" in destruct c eqn:E
  | |- post _ _ (match ?x with inl _ => _ | inr _ => _ end _) =>
      let E := fresh "Ecall" in destruct x eqn:E
  | |- post _ _ (draw ?f ?s) =>
      let E := fresh "Edraw" in
      unfold draw; destruct (f (rng s)) eqn:E; apply post_Ok; cbv beta
  end.

Ltac wp := repeat (wp1; simpl).

Lemma post_for_each {S A} (I : S -> Prop) E (f : A -> M S unit) l s :
  I s ->
  (forall x s, I s -> post (fun _ s' => I s') E (f x s)) ->
  post (fun _ s' => I s') E (for_each f l s).
Proof.
  intros Hs Hf. revert s Hs. induction l as [|x l IH]; intros s Hs; [done|].
  simpl. apply post_bind. eapply post_mono; [by apply Hf| |done].
  intros ? s' Hs'. by apply IH.
Qed.

Lemma post_comprehension {S A B} (I : S -> Prop) E (f : A -> M S B) l s :
  I s ->
  (forall x s, I s -> post (fun _ s' => I s') E (f x s)) ->
  post (fun _ s' => I s') E (comprehension f l s).
Proof.
  intros Hs Hf. revert s Hs. induction l as [|x l IH]; intros s Hs; [done|].
  simpl. apply post_bind. eapply post_mono; [by apply Hf| |done].
  intros y s' Hs'. apply post_bind.
  eapply post_mono; [by apply IH| |done]. done.
Qed.

Lemma same_but_dims_refl st : same_but_dims st st.
Proof. by repeat split. Qed.

Lemma same_but_dims_trans st1 st2 st3 :
  same_but_dims st1 st2 -> same_but_dims st2 st3 -> same_but_dims st1 st3.
Proof.
  unfold same_but_dims. intros (?&?&?&?&?&?) (?&?&?&?&?&?).
  repeat split; congruence.
Qed.

(** A loop over the column models writes nothing but column models. *)
Lemma for_dims_frame {A} body (a : A) st E :
  (forall e s, same_but_dims st s -> E e s) ->
  post (fun _ s => same_but_dims st s) E (for_dims body a st).
Proof.
  intros HE. unfold for_dims.
  destruct (dims_loop _ _ _) as [ds [e|a']]; simpl.
  - apply HE. by repeat split.
  - by repeat split.
Qed.

Lemma _logpdf_row_frame st rowid k :
  post (fun _ s => same_but_dims st s) (fun _ s => same_but_dims st s)
    (_logpdf_row rowid k st).
Proof.
  unfold _logpdf_row, bind; simpl.
  destruct (Nat.leb k (length (Nk st))); simpl.
  - by apply for_dims_frame.
  - apply same_but_dims_refl.
Qed.

Lemma _transition_row_logp_data_frame st rowid m :
  post (fun _ s => same_but_dims st s) (fun _ s => same_but_dims st s)
    (_transition_row_logp_data rowid m st).
Proof.
  assert (Hrows : forall (l : list nat) (f : nat -> nat) s,
    same_but_dims st s ->
    post (fun _ s' => same_but_dims st s') (fun _ s' => same_but_dims st s')
      (comprehension (fun x => _logpdf_row rowid (f x)) l s)).
  { intros l f s Hs. apply (post_comprehension (same_but_dims st)); [done|].
    intros x s1 Hs1. eapply post_mono; [apply _logpdf_row_frame|..];
      simpl; intros; by eapply same_but_dims_trans. }
  unfold _transition_row_logp_data. wp.
  eapply post_mono; [apply (Hrows _ (fun x => x)), same_but_dims_refl| |done].
  intros logp_data s Hs. wp; try done.
  eapply post_mono;
    [apply (Hrows _ (fun _ => length (Nk s)) s Hs)| |done].
  intros aux s' Hs'. by wp.
Qed.

(** ** The ledger along the methods *)

Lemma for_dims_ledger {A} body (a : A) st (P : list slot -> list Z -> Prop) :
  P (Zr st) (Nk st) ->
  post (fun _ s => same_but_dims st s /\ P (Zr s) (Nk s))
       (fun _ s => P (Zr s) (Nk s)) (for_dims body a st).
Proof.
  intros HP. unfold for_dims. destruct (dims_loop _ _ _) as [ds [e|a']]; simpl.
  - done.
  - by repeat split.
Qed.

(** [incorporate_row] keeps the ledger, whether it returns or raises, when
    the row is unassigned. *)
Lemma incorporate_row_with_ledger f rowid (ko : option nat) st :
  view_ledger st -> unassigned st rowid ->
  post (fun _ s => view_ledger s) (fun _ s => view_ledger s)
    (incorporate_row_with (transition_rows_with f) rowid ko st).
Proof.
  intros Hok Hun. unfold incorporate_row_with, view_ledger in *.
  set (k' := match ko with Some j => j | None => 0 end).
  replace (match ko with Some j => Some j | None => Some 0 end)
    with (Some k') by (by destruct ko).
  wp.
  eapply post_mono; [apply (for_dims_ledger _ _ _ ledger_ok), Hok| |done].
  intros [] s [(_&_&_&Hzr&Hnk&_) _]. simpl.
  wp1. wp1. simpl.
  pose proof (ledger_ok_incorporate (Zr st) (Nk st) rowid k') as Hinc.
  assert (Hrow : is_Some
    ((if Nat.eqb rowid (length (Zr st)) then Zr st ++ [Lbl 0] else Zr st)
       !! rowid)).
  { destruct Hun as [->|Hz].
    - rewrite Nat.eqb_refl, lookup_app_r, Nat.sub_diag by lia. by eexists.
    - destruct (Nat.eqb rowid (length (Zr st))); [|by eexists].
      apply lookup_lt_is_Some. rewrite length_app. apply lookup_lt_Some in Hz.
      lia. }
  unfold unassigned in Hun. rewrite <- Hzr, <- Hnk in *. clear Hzr Hnk.
  specialize (fun n => Hinc n Hok Hun).
  wp; rewrite ?Etest, ?Etest0 in Hinc, Hrow.
  all: try done.
  all: try (destruct Hrow; congruence).
  all: try (by apply Hinc).
  apply lookup_ge_None in Elook. rewrite length_app in Elook. simpl in Elook.
  reflect_tests. lia.
Qed.

(** [unincorporate_row], when it returns, keeps the ledger and leaves the
    slot of the row vacant. *)
Lemma unincorporate_row_ledger rowid st :
  view_ledger st ->
  post (fun _ s => view_ledger s /\ Zr s !! rowid = Some NaN)
    (fun _ _ => True) (unincorporate_row rowid st).
Proof.
  intros Hok. unfold unincorporate_row, view_ledger in *. wp.
  eapply post_mono; [apply (for_dims_frame _ _ _ (fun _ _ => True))| |done];
    [done|].
  intros [] s (_&_&_&Hzr&Hnk&_). simpl. rewrite <- Hzr, <- Hnk in *.
  clear Hzr Hnk. wp; try done.
  - destruct s0 as [k|]; [|done]. simpl in Elook0. injection Elook0 as ->.
    reflect_tests.
    eapply post_mono; [apply (for_dims_frame _ _ _ (fun _ _ => True))| |done];
      [done|].
    intros [] s' (_&_&_&Hzr&Hnk&_). simpl in *. wp. rewrite Hzr, Hnk. split.
    + by apply ledger_ok_compact.
    + apply list_lookup_insert_eq. rewrite length_map.
      by eapply lookup_lt_Some.
  - destruct s0 as [k|]; [|done]. simpl in Elook0. injection Elook0 as ->.
    split.
    + by apply ledger_ok_vacate.
    + apply list_lookup_insert_eq. by eapply lookup_lt_Some.
Qed.

Lemma _check_partitions_frame st (Q : View val stat gen -> Prop) :
  Q st -> post (fun _ s => Q s) (fun _ s => Q s) (_check_partitions st).
Proof. intros HQ. unfold _check_partitions. by wp. Qed.

(** A row transition, when it returns, keeps the ledger, whatever is drawn. *)
Lemma _transition_row_with_ledger f rowid m st :
  (forall r ko s, view_ledger s -> unassigned s r ->
     post (fun _ s' => view_ledger s') (fun _ _ => True) (f r ko s)) ->
  view_ledger st ->
  post (fun _ s => view_ledger s) (fun _ _ => True)
    (_transition_row_with f rowid m st).
Proof.
  intros Hf Hok. unfold _transition_row_with. wp; try done.
  eapply post_mono; [apply _transition_row_logp_data_frame| |done].
  intros logp_data s1 (_&_&_&Hzr&Hnk&_). simpl.
  assert (Hs : view_ledger s1) by (unfold view_ledger; by rewrite Hzr, Hnk).
  clear Hzr Hnk. wp; try done.
  - eapply post_mono; [by apply unincorporate_row_ledger| |done].
    intros [] s' [Hs' Hvac]. simpl. wp.
    eapply post_mono; [apply Hf; [done|by right]| |done].
    intros [] s'' Hs''. simpl.
    eapply post_mono; [by apply (_check_partitions_frame s'' view_ledger)|..];
      done.
  - eapply post_mono; [by apply (_check_partitions_frame _ view_ledger)|..];
      done.
Qed.

Lemma incorporate_row_at_ledger depth rowid (ko : option nat) st :
  view_ledger st -> unassigned st rowid ->
  post (fun _ s => view_ledger s) (fun _ s => view_ledger s)
    (incorporate_row_at depth rowid ko st).
Proof.
  intros Hok Hun. destruct depth as [|depth]; simpl.
  - done.
  - by apply incorporate_row_with_ledger.
Qed.

Lemma transition_rows_ledger rows st :
  view_ledger st ->
  post (fun _ s => view_ledger s) (fun _ _ => True) (transition_rows rows st).
Proof.
  intros Hok. unfold transition_rows, transition_rows_with. wp.
  assert (Hloop : forall l, post (fun _ s => view_ledger s) (fun _ _ => True)
            (for_each (fun r => _transition_row r 1) l st)).
  { intros l. apply (post_for_each view_ledger); [done|].
    intros r s Hs. apply _transition_row_with_ledger; [|done].
    intros r' ko s' Hs' Hun. eapply post_mono;
      [by apply incorporate_row_at_ledger|..]; done. }
  destruct rows as [rows|]; wp; apply Hloop.
Qed.

(** Every call, when it returns, keeps the ledger. *)
Lemma run_ledger (c : call) st :
  view_ledger st -> admissible st c ->
  post (fun _ s => view_ledger s) (fun _ _ => True) (run c st).
Proof.
  intros Hok Hadm. destruct c; simpl in *.
  - eapply post_mono; [by apply incorporate_row_with_ledger|..]; done.
  - eapply post_mono; [by apply unincorporate_row_ledger|..]; [|done].
    by intros ?? [? _].
  - by apply transition_rows_ledger.
  - unfold transition_alpha. by wp.
  - unfold incorporate_dim. by wp.
  - unfold unincorporate_dim. by wp.
  - unfold reindex_rows. wp; try done.
    all: by apply ledger_ok_reindex.
  - unfold set_dataset. by wp.
Qed.

(** The constructor establishes the ledger. *)
Lemma __init___ledger X dims alpha Zr rng st :
  __init__ X dims alpha Zr rng = inr st -> view_ledger st.
Proof.
  unfold __init__. destruct (Nat.eqb (length X) 0); [done|].
  destruct (match alpha with Some a => _ | None => _ end) as [a g].
  destruct (match Zr with Some zr => _ | None => _ end) as [zr g'].
  match goal with
  | |- context [for_each ?f ?l ?s] =>
      assert (Hloop : post (fun _ s' => view_ledger s') (fun _ _ => True)
                (for_each f l s))
  end.
  { apply (post_for_each view_ledger).
    - apply ledger_ok_bincount.
    - intros d s Hs. unfold incorporate_dim. by wp. }
  destruct (for_each _ _ _); [|done]. by intros [= <-].
Qed.

(** ** C1: the accounting invariant *)


(** ** Loops over column models that fit *)

Lemma dims_loop_map (g : Dim stat -> Dim stat)
    (body : Dim stat -> unit -> Dim stat * (exn + unit)) ds :
  Forall (fun cd => body cd.2 tt = (g cd.2, inr tt)) ds ->
  dims_loop body ds tt = (map (fun cd => (cd.1, g cd.2)) ds, inr tt).
Proof.
  induction 1 as [|[c d] ds Hd _ IH]; simpl in *; [done|].
  by rewrite Hd, IH.
Qed.

Lemma dims_loop_total {A} (P : Dim stat -> Prop)
    (body : Dim stat -> A -> Dim stat * (exn + A)) ds a :
  Forall (fun cd => forall b, exists d' b',
            body cd.2 b = (d', inr b') /\ P d') ds ->
  exists ds' a', dims_loop body ds a = (ds', inr a') /\
                 Forall (fun cd => P cd.2) ds'.
Proof.
  intros H. revert a. induction H as [|[c d] ds Hd _ IH]; intros a; simpl in *.
  - by exists [], a.
  - destruct (Hd a) as (d'&b'&->&HP). destruct (IH b') as (ds'&a'&->&Hds').
    exists ((c, d') :: ds'), a'. split; [done|]. by constructor.
Qed.

Lemma dims_fit_X_at st rowid cd :
  dims_fit st -> cd ∈ dims st -> rowid < length (X st) ->
  is_Some (X_at (X st) rowid (index cd.2)).
Proof.
  intros Hfit Hcd Hrow. unfold dims_fit in Hfit.
  rewrite Forall_forall in Hfit. destruct (Hfit cd Hcd) as [_ Hcol].
  unfold X_at. apply lookup_lt_is_Some in Hrow as [row Hrow]. rewrite Hrow.
  apply lookup_lt_is_Some, Hcol. by eapply list_elem_of_lookup_2.
Qed.

Lemma dim_unincorporate_fits x k d :
  k < length (clusters d) ->
  dim_unincorporate x (Lbl k) d
  = inr (set_clusters d (alter (cm_unincorporate x) k (clusters d))).
Proof.
  intros Hk. unfold dim_unincorporate.
  by destruct (Nat.ltb_spec k (length (clusters d))); [|lia].
Qed.

Lemma dim_incorporate_existing x k d :
  k < length (clusters d) ->
  dim_incorporate x (Lbl k) d
  = inr (set_clusters d (alter (cm_incorporate x) k (clusters d))).
Proof.
  intros Hk. unfold dim_incorporate.
  by destruct (Nat.ltb_spec k (length (clusters d))); [|lia].
Qed.

Lemma dim_incorporate_fresh x d :
  dim_incorporate x (Lbl (length (clusters d))) d
  = inr (set_clusters d (clusters d ++ [cm_incorporate x cm_new])).
Proof.
  unfold dim_incorporate.
  destruct (Nat.ltb_spec (length (clusters d)) (length (clusters d))); [lia|].
  by rewrite Nat.eqb_refl.
Qed.

Lemma dim_logpdf_fits x k d :
  k <= length (clusters d) -> exists l, dim_logpdf x (Lbl k) d = inr l.
Proof.
  intros Hk. unfold dim_logpdf. destruct (clusters d !! k) eqn:E; [by eexists|].
  apply lookup_ge_None in E. replace k with (length (clusters d)) by lia.
  rewrite Nat.eqb_refl. by eexists.
Qed.

(** The data log-likelihood of a row under a cluster is computed without
    failure on a View in good order, and leaves it in good order. *)
Lemma _logpdf_row_returns st rowid k :
  view_ok st -> rowid < length (X st) -> rowid < length (Zr st) ->
  k <= length (Nk st) ->
  exists l st', _logpdf_row rowid k st = Ok l st' /\
    same_but_dims st st' /\ view_ok st'.
Proof.
  intros [Hled Hfit] Hrow Hz Hk. unfold _logpdf_row, bind; simpl.
  destruct (Nat.leb_spec k (length (Nk st))); [simpl|lia].
  apply lookup_lt_is_Some in Hz as [z Hz]. unfold for_dims.
  match goal with
  | |- context [dims_loop ?b ?d ?a] =>
      destruct (dims_loop_total (dim_fits (X st) (length (Nk st))) b d a)
        as (ds'&l&->&Hds')
  end.
  - apply Forall_forall. intros cd Hcd b.
    destruct (dims_fit_X_at st rowid cd Hfit Hcd Hrow) as [x ->].
    rewrite Hz. unfold dims_fit in Hfit. rewrite Forall_forall in Hfit.
    destruct (Hfit cd Hcd) as [Hlen Hcol].
    destruct (py_eq z (Lbl k)) eqn:Ez.
    + destruct z as [j|]; [|done]. simpl in Ez. apply Nat.eqb_eq in Ez.
      subst j. destruct Hled as [_ Hl]. specialize (Hl rowid k Hz).
      rewrite dim_unincorporate_fits by lia.
      edestruct (dim_logpdf_fits x k) as [l' ->];
        [|rewrite dim_incorporate_existing].
      * simpl. rewrite length_alter. lia.
      * do 2 eexists. split; [done|]. split; [|done]. simpl.
        by rewrite !length_alter.
      * simpl. rewrite length_alter. lia.
    + edestruct (dim_logpdf_fits x k) as [l' ->]; [lia|].
      do 2 eexists. split; [done|]. by split.
  - exists l. eexists. split; [done|]. split; [by repeat split|].
    split; [done|]. done.
Qed.

Lemma comprehension_app {S A B} (f : A -> M S B) l1 l2 s :
  comprehension f (l1 ++ l2) s
  = (a <- comprehension f l1 ;; b <- comprehension f l2 ;; ret (a ++ b)) s.
Proof.
  revert s. induction l1 as [|x l1 IH]; intros s; simpl.
  - unfold bind, ret. by destruct (comprehension f l2 s).
  - unfold bind. destruct (f x s) as [y s1|e s1]; [|done].
    rewrite IH. unfold bind, ret.
    destruct (comprehension f l1 s1) as [a s2|e s2]; [|done].
    by destruct (comprehension f l2 s2).
Qed.

(** The candidates of a row transition on a View in good order. *)
Lemma _transition_row_logp_data_returns st rowid k0 (n : Z) :
  view_ok st -> rowid < length (X st) ->
  Zr st !! rowid = Some (Lbl k0) -> Nk st !! k0 = Some n ->
  exists logp_data st',
    _transition_row_logp_data rowid 1 st = Ok logp_data st' /\
    comprehension (_logpdf_row rowid)
      (seq 0 (length (Nk st))
       ++ (if Z.eqb n 1 then [] else [length (Nk st)])) st
    = Ok logp_data st' /\
    length logp_data = length (Nk st) + (if Z.eqb n 1 then 0 else 1) /\
    same_but_dims st st' /\ view_ok st'.
Proof.
  intros Hok Hrow Hz Hn.
  set (I := fun s => same_but_dims st s /\ view_ok s).
  assert (Hstep : forall k, k <= length (Nk st) -> forall s, I s ->
    exists y s', _logpdf_row rowid k s = Ok y s' /\ I s').
  { intros k Hk s [Hsame Hs]. pose proof Hsame as (HX&_&_&HZr&HNk&_).
    destruct (_logpdf_row_returns s rowid k Hs) as (y&s'&Hy&Hsame'&Hs').
    - by rewrite HX.
    - rewrite HZr. by eapply lookup_lt_Some.
    - by rewrite HNk.
    - exists y, s'. split; [done|]. split; [|done].
      by eapply same_but_dims_trans. }
  assert (HI : I st) by (split; [apply same_but_dims_refl|done]).
  assert (Hall : forall l s, I s -> Forall (fun k => k <= length (Nk st)) l ->
    exists ys s', comprehension (_logpdf_row rowid) l s = Ok ys s' /\ I s' /\
                  length ys = length l).
  { intros l. induction l as [|k l IH]; intros s Hs Hl; simpl.
    - by exists [], s.
    - apply Forall_cons in Hl as [Hk Hl].
      destruct (Hstep k Hk s Hs) as (y&s1&Hy&Hs1).
      destruct (IH s1 Hs1 Hl) as (ys&s2&Hys&Hs2&Hlen).
      exists (y :: ys), s2. unfold bind. rewrite Hy, Hys. simpl.
      by rewrite Hlen. }
  destruct (Hall (seq 0 (length (Nk st))) st HI) as (l1&s1&H1&Hs1&Hlen1).
  { apply Forall_forall. intros k Hk. apply list_elem_of_In, in_seq in Hk. lia. }
  destruct (Hall (if Z.eqb n 1 then [] else [length (Nk st)]) s1 Hs1)
    as (l2&s2&H2&Hs2&Hlen2).
  { destruct (Z.eqb n 1); repeat constructor. }
  pose proof Hs1 as [(_&_&_&HZr&HNk&_) _].
  exists (l1 ++ l2), s2. split; [|split; [|split]].
  - unfold _transition_row_logp_data, bind. simpl. rewrite H1. simpl.
    rewrite HZr, Hz. simpl. rewrite HNk, Hn. simpl.
    destruct (Z.eqb n 1); simpl in *.
    + by injection H2 as <- <-.
    + unfold bind in H2. unfold bind.
      destruct (_logpdf_row rowid (length (Nk st)) s1); [|done].
      simpl in *. by injection H2 as <- <-.
  - rewrite comprehension_app. unfold bind. by rewrite H1, H2.
  - rewrite length_app, Hlen1, Hlen2, length_seq.
    by destruct (Z.eqb n 1).
  - done.
Qed.

(** ** C6: the auxiliary candidates of a row transition *)

(** C6: with [m = 1], the candidate data log-likelihoods of a row transition
    are those of the existing clusters [0 .. len(Nk) - 1], in label order,
    followed by no fresh-cluster candidate when the row is alone in its
    cluster ([Nk[Zr[rowid]] == 1]) and by exactly one, for the fresh label
    [len(Nk)], otherwise (in particular when the cluster has more than one
    row). *)
Theorem transition_row_candidates st rowid k0 (n : Z) :
  view_ok st -> rowid < length (X st) ->
  Zr st !! rowid = Some (Lbl k0) -> Nk st !! k0 = Some n ->
  exists logp_data st',
    _transition_row_logp_data rowid 1 st = Ok logp_data st' /\
    comprehension (_logpdf_row rowid)
      (seq 0 (length (Nk st))
       ++ (if Z.eqb n 1 then [] else [length (Nk st)])) st
    = Ok logp_data st' /\
    length logp_data = length (Nk st) + (if Z.eqb n 1 then 0 else 1).
Proof.
  intros Hok Hrow Hz Hn.
  destruct (_transition_row_logp_data_returns st rowid k0 n Hok Hrow Hz Hn)
    as (logp_data&st'&H1&H2&H3&_).
  by exists logp_data, st'.
Qed.

(** ** What the two row methods do to a View in good order *)

Lemma for_dims_map (g : Dim stat -> Dim stat) body st :
  Forall (fun cd => body st cd.2 tt = (g cd.2, inr tt)) (dims st) ->
  for_dims body tt st = Ok tt (set_dims (map_dims g (dims st)) st).
Proof.
  intros H. unfold for_dims. by rewrite (dims_loop_map g (body st)).
Qed.

Lemma delete_insert_same {A} (l : list A) k x :
  delete k (<[k:=x]> l) = delete k l.
Proof.
  revert k. induction l as [|y l IH]; intros [|k]; simpl; try done.
  by rewrite IH.
Qed.

Lemma unincorporate_row_returns st rowid k n :
  view_ok st -> rowid < length (X st) ->
  Zr st !! rowid = Some (Lbl k) -> Nk st !! k = Some n ->
  unincorporate_row rowid st = Ok tt (unincorporated st rowid k n).
Proof.
  intros [[Hc Hl] Hfit] Hrow Hz Hn.
  assert (Hk : k < length (Nk st)) by (by eapply Hl).
  unfold unincorporate_row, bind.
  rewrite (for_dims_map (on_row (X st) rowid (dim_without k))).
  2:{ apply Forall_forall. intros cd Hcd. unfold on_row.
      destruct (dims_fit_X_at st rowid cd Hfit Hcd Hrow) as [x ->].
      rewrite Hz. unfold dims_fit in Hfit. rewrite Forall_forall in Hfit.
      destruct (Hfit cd Hcd) as [Hlen _].
      by rewrite dim_unincorporate_fits by lia. }
  simpl. rewrite Hz. simpl. rewrite Hn. simpl.
  unfold unincorporated. destruct (Z.eqb (n - 1) 0); simpl; [|done].
  rewrite (for_dims_map (dim_deleted k)).
  - simpl. unfold map_dims. rewrite map_map. simpl.
    by rewrite delete_insert_same.
  - simpl. apply Forall_forall. intros cd Hcd.
    apply list_elem_of_fmap in Hcd as ([c d]&->&Hcd). simpl.
    unfold dims_fit in Hfit. rewrite Forall_forall in Hfit.
    destruct (Hfit _ Hcd) as [Hlen _]. simpl in Hlen.
    unfold dim_bulk_unincorporate, on_row.
    destruct (X_at _ _ _); simpl; rewrite ?length_alter;
      by destruct (Nat.ltb_spec k (length (clusters d))); [|lia].
Qed.

Lemma incorporate_row_with_returns f st rowid k :
  view_ok st -> rowid < length (X st) -> rowid <= length (Zr st) ->
  k <= length (Nk st) ->
  incorporate_row_with (transition_rows_with f) rowid (Some k) st
  = Ok tt (incorporated st rowid k).
Proof.
  intros [[Hc Hl] Hfit] Hrow Hz Hk.
  unfold incorporate_row_with, bind. simpl.
  rewrite (for_dims_map (on_row (X st) rowid (dim_with k))).
  2:{ apply Forall_forall. intros cd Hcd. unfold on_row.
      destruct (dims_fit_X_at st rowid cd Hfit Hcd Hrow) as [x ->].
      unfold dims_fit in Hfit. rewrite Forall_forall in Hfit.
      destruct (Hfit cd Hcd) as [Hlen _]. unfold dim_with.
      destruct (Nat.ltb_spec k (length (clusters cd.2))).
      - by rewrite dim_incorporate_existing.
      - replace k with (length (clusters cd.2)) by lia.
        by rewrite dim_incorporate_fresh. }
  simpl. unfold incorporated.
  assert (Hnk : is_Some
    ((if Nat.eqb k (length (Nk st)) then Nk st ++ [0%Z] else Nk st) !! k)).
  { apply lookup_lt_is_Some.
    destruct (Nat.eqb_spec k (length (Nk st))); rewrite ?length_app; simpl; lia. }
  assert (Hzr : is_Some
    ((if Nat.eqb rowid (length (Zr st)) then Zr st ++ [Lbl 0] else Zr st)
       !! rowid)).
  { apply lookup_lt_is_Some.
    destruct (Nat.eqb_spec rowid (length (Zr st)));
      rewrite ?length_app; simpl; lia. }
  destruct Hnk as [n Hnk], Hzr as [z Hzr].
  destruct (Nat.eqb k (length (Nk st))); simpl; rewrite Hnk; simpl;
    destruct (Nat.eqb rowid (length (Zr st))); simpl; rewrite Hzr; done.
Qed.

Lemma view_ok_incorporated st rowid k :
  view_ok st -> rowid < length (X st) -> unassigned st rowid ->
  k <= length (Nk st) -> view_ok (incorporated st rowid k).
Proof.
  intros [Hled Hfit] Hrow Hun Hk. split.
  - unfold view_ledger, incorporated. simpl.
    apply ledger_ok_incorporate; [done..|].
    destruct (_ !! k) eqn:E; [done|]. apply lookup_ge_None in E.
    destruct (Nat.eqb_spec k (length (Nk st))); rewrite ?length_app in E;
      simpl in E; lia.
  - unfold dims_fit, incorporated, map_dims. simpl.
    rewrite length_insert. apply Forall_fmap, Forall_forall.
    intros cd Hcd. simpl.
    destruct (dims_fit_X_at st rowid cd Hfit Hcd Hrow) as [x Hx].
    unfold dims_fit in Hfit. rewrite Forall_forall in Hfit.
    destruct (Hfit cd Hcd) as [Hlen Hcol]. unfold on_row. rewrite Hx.
    split; [|done]. unfold dim_with. simpl.
    destruct (Nat.ltb_spec k (length (clusters cd.2))),
      (Nat.eqb_spec k (length (Nk st)));
      rewrite ?length_alter, ?length_app; simpl; lia.
Qed.

Lemma view_ok_unincorporated st rowid k n :
  view_ok st -> Zr st !! rowid = Some (Lbl k) -> Nk st !! k = Some n ->
  view_ok (unincorporated st rowid k n).
Proof.
  intros [Hled Hfit] Hz Hn.
  assert (Hk : k < length (Nk st)) by (by eapply lookup_lt_Some).
  unfold unincorporated. destruct (Z.eqb_spec (n - 1) 0) as [Hn1|Hn1]; split.
  - unfold view_ledger. simpl. rewrite <- (delete_insert_same _ _ (n - 1)%Z).
    by apply ledger_ok_compact.
  - unfold dims_fit, map_dims. simpl. apply Forall_fmap, Forall_forall.
    intros cd Hcd. simpl. unfold dims_fit in Hfit.
    rewrite Forall_forall in Hfit. destruct (Hfit cd Hcd) as [Hlen Hcol].
    split.
    + unfold dim_deleted, on_row, dim_without. simpl.
      rewrite !length_delete.
      * by destruct (X_at _ _ _); simpl; rewrite ?length_alter, Hlen.
      * by apply lookup_lt_is_Some.
      * apply lookup_lt_is_Some.
        destruct (X_at _ _ _); simpl; rewrite ?length_alter; lia.
    + unfold dim_deleted, on_row, dim_without. simpl.
      by destruct (X_at _ _ _).
  - unfold view_ledger. simpl. by apply ledger_ok_vacate.
  - unfold dims_fit, map_dims. simpl. rewrite length_insert.
    apply Forall_fmap, Forall_forall.
    intros cd Hcd. simpl. unfold dims_fit in Hfit.
    rewrite Forall_forall in Hfit. destruct (Hfit cd Hcd) as [Hlen Hcol].
    unfold on_row, dim_without.
    destruct (X_at _ _ _); split; simpl; rewrite ?length_alter; done.
Qed.

(** ** C5: compaction of the labels *)

(** C5 (as amended): when [unincorporate_row] removes the last row of
    cluster [k], the counter of [k] is deleted from [Nk], every other row
    holding a label above [k] holds that label less one and every other row
    keeps its slot otherwise, every attached column model has deleted its
    cluster [k], and the labels that survive keep their relative order. *)
Theorem unincorporate_row_compacts st rowid k :
  view_ok st -> rowid < length (X st) ->
  Zr st !! rowid = Some (Lbl k) -> Nk st !! k = Some 1%Z ->
  exists st',
    unincorporate_row rowid st = Ok tt st' /\
    Nk st' = delete k (Nk st) /\
    Zr st' = <[rowid:=NaN]> (map (relabel k) (Zr st)) /\
    (forall i j, i <> rowid -> Zr st !! i = Some (Lbl j) ->
       Zr st' !! i = Some (Lbl (compacted_label k j))) /\
    (forall i, Zr st !! i = Some NaN -> Zr st' !! i = Some NaN) /\
    dims st' =
      map_dims (fun d => dim_deleted k (on_row (X st) rowid (dim_without k) d))
        (dims st) /\
    (forall a b, a <> k -> b <> k -> a < b ->
       compacted_label k a < compacted_label k b).
Proof.
  intros Hok Hrow Hz Hn. exists (unincorporated st rowid k 1).
  split; [by apply unincorporate_row_returns|].
  unfold unincorporated. simpl. repeat split.
  - intros i j Hne Hi. rewrite list_lookup_insert_ne by done.
    rewrite list_lookup_fmap, Hi. simpl. unfold relabel, compacted_label.
    simpl. by destruct (Nat.ltb k j).
  - intros i Hi. destruct (decide (i = rowid)) as [->|Hne].
    + apply list_lookup_insert_eq. rewrite length_map.
      by eapply lookup_lt_Some.
    + rewrite list_lookup_insert_ne by done. by rewrite list_lookup_fmap, Hi.
  - intros a b Ha Hb Hab. unfold compacted_label.
    destruct (Nat.ltb_spec k a), (Nat.ltb_spec k b); lia.
Qed.

(** ** C4: incorporating then unincorporating a row *)

Lemma set_clusters_same (d : Dim stat) : set_clusters d (clusters d) = d.
Proof. by destruct d. Qed.

(** C4: on a View in good order, for an unassigned row and a label [k] with
    [0 <= k <= len(Nk)], [incorporate_row(rowid, k)] followed by
    [unincorporate_row(rowid)] both return, and [Nk] and every attached
    column model are afterwards what they were, provided the column family's
    unincorporate undoes its incorporate. The one exception is a label [k]
    whose cluster was empty before: the row was then its only member, and the
    cluster is compacted away from [Nk] and from every column model. *)
Theorem incorporate_unincorporate_roundtrip st rowid k :
  (forall x (s : stat), cm_unincorporate x (cm_incorporate x s) = s) ->
  view_ok st -> rowid < length (X st) -> unassigned st rowid ->
  k <= length (Nk st) ->
  exists st1 st2,
    incorporate_row rowid (Some k) st = Ok tt st1 /\
    unincorporate_row rowid st1 = Ok tt st2 /\
    if decide (Nk st !! k = Some 0%Z)
    then Nk st2 = delete k (Nk st) /\
         dims st2 = map_dims (dim_deleted k) (dims st)
    else Nk st2 = Nk st /\ dims st2 = dims st.
Proof.
  intros Hlaw Hok Hrow Hun Hk.
  assert (Hzlen : rowid <= length (Zr st)).
  { destruct Hun as [->|Hz]; [done|]. apply lookup_lt_Some in Hz. lia. }
  pose proof (view_ok_incorporated st rowid k Hok Hrow Hun Hk) as Hok1.
  assert (Hz1 : Zr (incorporated st rowid k) !! rowid = Some (Lbl k)).
  { unfold incorporated. simpl. apply list_lookup_insert_eq.
    destruct (Nat.eqb_spec rowid (length (Zr st)));
      rewrite ?length_app; simpl; lia. }
  pose proof Hok as [_ Hfit]. unfold dims_fit in Hfit.
  rewrite Forall_forall in Hfit.
  assert (Hdims : forall g h : Dim stat -> Dim stat,
    (forall cd x, cd ∈ dims st -> X_at (X st) rowid (index cd.2) = Some x ->
       g (dim_with k x cd.2) = h cd.2) ->
    map_dims g (map_dims (on_row (X st) rowid (dim_with k)) (dims st))
    = map_dims h (dims st)).
  { intros g h Hg. unfold map_dims. rewrite map_map. simpl.
    apply map_ext_in.
    intros [c d] Hcd. apply list_elem_of_In in Hcd. simpl. f_equal.
    destruct (dims_fit_X_at st rowid (c, d)) as [x Hx]; [|done..|].
    { unfold dims_fit. by rewrite Forall_forall. }
    simpl in Hx. unfold on_row at 1. rewrite Hx.
    by apply (Hg (c, d) x). }
  assert (Hid : map_dims (fun d => d) (dims st) = dims st).
  { unfold map_dims. rewrite <- (map_id (dims st)) at 2. apply map_ext.
    by intros [c d]. }
  destruct (decide (k = length (Nk st))) as [Heq|Hne].
  - assert (Hn1 : Nk (incorporated st rowid k) !! k = Some 1%Z).
    { unfold incorporated. simpl. subst k. rewrite Nat.eqb_refl.
      rewrite (lookup_app_r (Nk st)), Nat.sub_diag by lia. simpl.
      apply list_lookup_insert_eq. rewrite length_app. simpl. lia. }
    exists (incorporated st rowid k),
      (unincorporated (incorporated st rowid k) rowid k 1).
    split; [by apply incorporate_row_with_returns|].
    split; [by apply unincorporate_row_returns|].
    destruct (decide (Nk st !! k = Some 0%Z)) as [Hzero|_].
    { apply lookup_lt_Some in Hzero. lia. }
    unfold unincorporated. simpl. split.
    + subst k. rewrite Nat.eqb_refl, delete_insert_same.
      rewrite (delete_middle (Nk st) [] 0%Z). apply app_nil_r.
    + rewrite <- Hid at 2. apply Hdims.
      intros cd x Hcd Hx. destruct (Hfit cd Hcd) as [Hlen _].
      unfold dim_deleted, on_row, dim_with, dim_without. simpl.
      rewrite Hx. destruct cd as [c [idx cs]]. simpl in *.
      rewrite Heq, <- Hlen, Nat.ltb_irrefl. unfold set_clusters. simpl.
      f_equal. rewrite (alter_app_r_alt _ cs), Nat.sub_diag by lia.
      simpl. by rewrite (delete_middle cs [] _), app_nil_r.
  - assert (Hlt : k < length (Nk st)) by lia.
    apply lookup_lt_is_Some in Hlt as [n Hn].
    assert (Hn1 : Nk (incorporated st rowid k) !! k = Some (n + 1)%Z).
    { unfold incorporated. simpl.
      destruct (Nat.eqb_spec k (length (Nk st))); [done|]. rewrite Hn. simpl.
      apply list_lookup_insert_eq. by eapply lookup_lt_Some. }
    exists (incorporated st rowid k),
      (unincorporated (incorporated st rowid k) rowid k (n + 1)).
    split; [by apply incorporate_row_with_returns|].
    split; [by apply unincorporate_row_returns|].
    assert (Hundo : forall cd x, cd ∈ dims st ->
      X_at (X st) rowid (index cd.2) = Some x ->
      on_row (X st) rowid (dim_without k) (dim_with k x cd.2) = cd.2).
    { intros cd x Hcd Hx. destruct (Hfit cd Hcd) as [Hlen _].
      unfold on_row, dim_with, dim_without. simpl. rewrite Hx.
      destruct cd as [c [idx cs]]. simpl in *.
      rewrite Hlen. apply lookup_lt_Some in Hn.
      destruct (Nat.ltb_spec k (length (Nk st))); [|lia].
      unfold set_clusters. simpl. f_equal.
      rewrite list_alter_alter_eq, list_alter_id; [done|].
      intros s. simpl. apply Hlaw. }
    unfold unincorporated. replace (n + 1 - 1)%Z with n by lia.
    rewrite Hn.
    destruct (decide (Some n = Some 0%Z)) as [[= ->]|Hn0]; simpl.
    + split.
      * destruct (Nat.eqb_spec k (length (Nk st))); [done|].
        by rewrite !delete_insert_same.
      * apply Hdims. intros cd x Hcd Hx. by rewrite (Hundo cd x).
    + destruct (Z.eqb_spec n 0) as [->|_]; [done|]. simpl. split.
      * destruct (Nat.eqb_spec k (length (Nk st))); [done|].
        rewrite list_insert_insert_eq. by apply list_insert_id.
      * rewrite <- Hid at 2. apply Hdims. intros cd x Hcd Hx.
        by apply Hundo.
Qed.

(** ** C10: the partition check in the presence of a vacant slot *)

Lemma countb_le {A} (p : A -> bool) l : countb p l <= length l.
Proof.
  induction l as [|y l IH]; [done|]. rewrite countb_cons. simpl.
  destruct (p y); lia.
Qed.

Lemma countb_lt {A} (p : A -> bool) l i x :
  l !! i = Some x -> p x = false -> countb p l < length l.
Proof.
  revert i. induction l as [|y l IH]; intros [|i] H Hp; simpl in H; try done.
  - injection H as ->. rewrite countb_cons, Hp. simpl.
    pose proof (countb_le p l). lia.
  - rewrite countb_cons. specialize (IH i H Hp). simpl.
    destruct (p y); lia.
Qed.

(** With a vacant slot the check of [_check_partitions] fails although the
    ledger is in order: it compares with the length of [Zr]. *)
Lemma _check_partitions_vacancy st i :
  view_ledger st -> (0 < alpha st)%R -> Zr st !! i = Some NaN ->
  sumZ (Nk st) <> Z.of_nat (length (Zr st)) /\
  _check_partitions st = Raise (AssertionError AssertPartitionSize) st.
Proof.
  intros Hled Ha Hi.
  assert (Hne : sumZ (Nk st) <> Z.of_nat (length (Zr st))).
  { rewrite (ledger_ok_sum _ _ Hled).
    pose proof (countb_lt (fun z => negb (isnan z)) (Zr st) i NaN Hi eq_refl).
    unfold assigned. lia. }
  split; [done|].
  unfold _check_partitions, bind. simpl.
  rewrite bool_decide_eq_true_2 by done. simpl.
  by destruct (Z.eqb_spec (sumZ (Nk st)) (Z.of_nat (length (Zr st)))).
Qed.

(** The migration of a row to the label drawn, on a View in good order. *)
Lemma migration_returns st rowid k0 n z_b :
  view_ok st -> rowid < length (X st) ->
  Zr st !! rowid = Some (Lbl k0) -> Nk st !! k0 = Some n ->
  z_b <= length (Nk (unincorporated st rowid k0 n)) ->
  exists st',
    (unincorporate_row rowid ;;
     incorporate_row_at recursion_limit rowid (Some z_b)) st = Ok tt st' /\
    view_ok st' /\ alpha st' = alpha st /\
    (forall i, Zr st !! i = Some NaN -> Zr st' !! i = Some NaN).
Proof.
  intros Hok Hrow Hz Hn Hzb.
  pose proof (view_ok_unincorporated st rowid k0 n Hok Hz Hn) as Hok1.
  set (st1 := unincorporated st rowid k0 n) in *.
  assert (HX1 : X st1 = X st /\ alpha st1 = alpha st).
  { unfold st1, unincorporated. by destruct (Z.eqb (n - 1) 0). }
  destruct HX1 as [HX1 Ha1].
  assert (Hlen1 : length (Zr st1) = length (Zr st)).
  { unfold st1, unincorporated.
    destruct (Z.eqb (n - 1) 0); simpl; by rewrite length_insert, ?length_map. }
  assert (Hvac1 : Zr st1 !! rowid = Some NaN).
  { apply lookup_lt_Some in Hz. unfold st1, unincorporated.
    destruct (Z.eqb (n - 1) 0); simpl; apply list_lookup_insert_eq;
      by rewrite ?length_map. }
  assert (Hkeep1 : forall i, Zr st !! i = Some NaN -> Zr st1 !! i = Some NaN).
  { intros i Hi. assert (i <> rowid) by congruence.
    unfold st1, unincorporated.
    destruct (Z.eqb (n - 1) 0); simpl; rewrite list_lookup_insert_ne by done;
      [|done]. by rewrite list_lookup_fmap, Hi. }
  exists (incorporated st1 rowid z_b). split; [|split; [|split]].
  - unfold bind. rewrite (unincorporate_row_returns st rowid k0 n) by done.
    change recursion_limit with (S 999). simpl.
    apply incorporate_row_with_returns; [done|by rewrite HX1| |done].
    apply lookup_lt_Some in Hvac1. lia.
  - apply view_ok_incorporated; [done|by rewrite HX1|by right|done].
  - done.
  - intros i Hi. assert (i <> rowid) by congruence. apply Hkeep1 in Hi.
    unfold incorporated. simpl. rewrite list_lookup_insert_ne by done.
    destruct (Nat.eqb rowid (length (Zr st1))); [|done].
    rewrite lookup_app_l; [done|]. by eapply lookup_lt_Some.
Qed.

(** C10 (as amended): [_check_partitions] asserts that [sum(Nk)] is the
    length of [Zr], vacant slots included. So on a View in good order with a
    vacant slot, the transition of any assigned row draws, migrates the row
    if the draw says so, and then fails that assertion, although the
    accounting invariant over the assigned rows holds of the View it
    leaves. *)
Theorem transition_row_fails_partition_check st rowid k0 i :
  gibbs_weights_ok -> pflip_in_range ->
  view_ok st -> (0 < alpha st)%R -> rowid < length (X st) ->
  Zr st !! rowid = Some (Lbl k0) -> Zr st !! i = Some NaN ->
  exists st',
    _transition_row rowid 1 st
      = Raise (AssertionError AssertPartitionSize) st' /\
    partition_invariant (Zr st') (Nk st') /\
    sumZ (Nk st') <> Z.of_nat (length (Zr st')).
Proof.
  intros Hgibbs Hpflip Hok Ha Hrow Hz Hi.
  pose proof Hok as [[Hc Hl] _].
  assert (Hk0 : k0 < length (Nk st)) by (by eapply Hl).
  pose proof (Hc k0 Hk0) as Hn. set (n := Z.of_nat (count_lbl k0 (Zr st))) in *.
  destruct (_transition_row_logp_data_returns st rowid k0 n Hok Hrow Hz Hn)
    as (logp_data&s1&Hdata&_&Hlen&Hsame&Hok1).
  pose proof Hsame as (HX&_&Halpha&HZr&HNk&_).
  set (w := logp_crp_gibbs (Nk s1) (Zr s1) rowid (alpha s1) 1).
  assert (Hcrp : length w = length (Nk st) + (if Z.eqb n 1 then 0 else 1)).
  { unfold w. rewrite (Hgibbs (Nk s1) (Zr s1) rowid (alpha s1) 1 k0 n).
    - rewrite HNk. by destruct (Z.eqb n 1).
    - by rewrite HZr.
    - by rewrite HNk. }
  assert (Hp : length (zip_with Rplus logp_data w)
               = length (Nk st) + (if Z.eqb n 1 then 0 else 1)).
  { by rewrite length_zip_with, Hlen, Hcrp, Nat.min_id. }
  destruct (log_pflip (zip_with Rplus logp_data w) (rng s1))
    as [z_b g] eqn:Hdraw.
  assert (Hzb : z_b < length (Nk st) + (if Z.eqb n 1 then 0 else 1)).
  { pose proof (Hpflip (zip_with Rplus logp_data w) (rng s1)) as Hr.
    rewrite Hdraw, Hp in Hr. apply Hr. intros Hnil.
    rewrite Hnil in Hp. simpl in Hp. lia. }
  set (s2 := set_rng g s1).
  assert (Hok2 : view_ok s2) by done.
  assert (Hstart :
    _transition_row rowid 1 st
    = ((if negb (py_eq (Lbl z_b) (Lbl k0)) then
          unincorporate_row rowid ;;
          incorporate_row_at recursion_limit rowid (Some z_b)
        else ret tt) ;; _check_partitions) s2).
  { unfold _transition_row, _transition_row_with, bind at 1 2. simpl.
    rewrite Hz. simpl. unfold bind at 1. rewrite Hdata. unfold bind at 1.
    simpl. unfold bind at 1. fold w. rewrite Hlen, Hcrp, Nat.eqb_refl. simpl.
    unfold bind at 1, draw. rewrite Hdraw. unfold bind at 1. simpl.
    unfold bind at 1. simpl. rewrite HZr, Hz. simpl. done. }
  rewrite Hstart. clear Hstart.
  destruct (negb (py_eq (Lbl z_b) (Lbl k0))).
  - destruct (migration_returns s2 rowid k0 n z_b) as (s3&Hmig&Hok3&Ha3&Hkeep);
      [done|by rewrite <- HX in Hrow|by rewrite <- HZr in Hz
      |by rewrite <- HNk in Hn| |].
    { unfold unincorporated. simpl. rewrite HNk.
      destruct (Z.eqb_spec n 1) as [->|Hn1]; simpl.
      - rewrite length_delete by (by apply lookup_lt_is_Some). lia.
      - destruct (Z.eqb_spec (n - 1) 0); [lia|]. simpl.
        rewrite length_insert. lia. }
    destruct (_check_partitions_vacancy s3 i) as [Hne Hcheck].
    + by destruct Hok3.
    + rewrite Ha3. simpl. by rewrite Halpha.
    + apply Hkeep. simpl. by rewrite HZr.
    + exists s3. rewrite (bind_Ok _ _ _ _ _ Hmig), Hcheck.
      split; [done|]. split; [|done].
      apply ledger_ok_invariant. by destruct Hok3.
  - destruct (_check_partitions_vacancy s2 i) as [Hne Hcheck].
    + by destruct Hok2.
    + simpl. by rewrite Halpha.
    + simpl. by rewrite HZr.
    + exists s2. unfold bind at 1. simpl. rewrite Hcheck.
      split; [done|]. split; [|done].
      apply ledger_ok_invariant. by destruct Hok2.
Qed.

(** ** C9: the concentration and its grid *)

Lemma same_but_dims_concentration st s :
  same_but_dims st s -> same_concentration st s.
Proof. by intros (_&?&?&_). Qed.

Ltac concentration :=
  unfold same_concentration in *; simpl in *; intuition congruence.

Lemma for_dims_concentration {A} body (a : A) st :
  post (fun _ s => same_concentration st s)
       (fun _ s => same_concentration st s) (for_dims body a st).
Proof.
  eapply post_mono; [apply (for_dims_frame _ _ _ (fun _ => same_but_dims st))|..];
    [done|intros; by apply same_but_dims_concentration..].
Qed.

Lemma incorporate_row_with_concentration f rowid (ko : option nat) st :
  post (fun _ s => same_concentration st s)
       (fun _ s => same_concentration st s)
    (incorporate_row_with (transition_rows_with f) rowid ko st).
Proof.
  unfold incorporate_row_with. wp; try done.
  eapply post_mono; [apply for_dims_concentration|..]; [|done].
  intros [] s Hs. simpl. wp; concentration.
Qed.

Lemma unincorporate_row_concentration rowid st :
  post (fun _ s => same_concentration st s)
       (fun _ s => same_concentration st s) (unincorporate_row rowid st).
Proof.
  unfold unincorporate_row. wp.
  eapply post_mono; [apply for_dims_concentration|..]; [|done].
  intros [] s Hs. simpl. wp; try concentration.
  eapply post_mono; [apply for_dims_concentration|..]; simpl.
  - intros [] s' Hs'. wp. concentration.
  - intros _ s' Hs'. concentration.
Qed.

Lemma _transition_row_concentration rowid m st :
  post (fun _ s => same_concentration st s)
       (fun _ s => same_concentration st s) (_transition_row rowid m st).
Proof.
  unfold _transition_row, _transition_row_with. wp; try done.
  eapply post_mono; [apply _transition_row_logp_data_frame|..];
    [|intros; by apply same_but_dims_concentration].
  intros logp_data s1 Hs1%same_but_dims_concentration. simpl.
  wp; try concentration.
  - eapply post_mono; [apply unincorporate_row_concentration|..]; simpl.
    + intros [] s2 Hs2. wp. change recursion_limit with (S 999). simpl.
      eapply post_mono; [apply incorporate_row_with_concentration|..]; simpl.
      * intros [] s3 Hs3.
        apply (_check_partitions_frame s3 (same_concentration st)).
        concentration.
      * intros _ s3 Hs3. concentration.
    + intros _ s2 Hs2. concentration.
  - apply (_check_partitions_frame _ (same_concentration st)). concentration.
Qed.

(** No call rebuilds the grid, and a call leaves the concentration as it was
    or sets it to an element of the grid. *)
Lemma run_concentration (c : call) st :
  alpha_grid (state_of (run c st)) = alpha_grid st /\
  (alpha (state_of (run c st)) = alpha st \/
   alpha (state_of (run c st)) ∈ alpha_grid st).
Proof.
  assert (Hsame : forall o : outcome (View val stat gen) unit,
    post (fun _ s => same_concentration st s)
         (fun _ s => same_concentration st s) o ->
    alpha_grid (state_of o) = alpha_grid st /\
    (alpha (state_of o) = alpha st \/ alpha (state_of o) ∈ alpha_grid st)).
  { intros [[] s|e s] [? ?]; simpl; auto. }
  destruct c; simpl.
  - apply Hsame, incorporate_row_with_concentration.
  - apply Hsame, unincorporate_row_concentration.
  - apply Hsame. unfold transition_rows, transition_rows_with. wp.
    assert (Hloop : forall l,
      post (fun _ s => same_concentration st s)
           (fun _ s => same_concentration st s)
        (for_each (fun r => _transition_row r 1) l st)).
    { intros l. apply (post_for_each (same_concentration st)); [done|].
      intros r s Hs. eapply post_mono; [apply _transition_row_concentration|..];
        intros ? s' [? ?]; destruct Hs; split; congruence. }
    destruct rows; wp; apply Hloop.
  - unfold transition_alpha, bind, draw. simpl.
    destruct (log_pflip _ _) as [i g]. simpl.
    destruct (alpha_grid st !! i) as [a|] eqn:E; simpl; [|auto].
    split; [done|]. right. by eapply list_elem_of_lookup_2.
  - apply Hsame. unfold incorporate_dim. by wp.
  - apply Hsame. unfold unincorporate_dim. by wp.
  - apply Hsame. unfold reindex_rows. by wp.
  - auto.
Qed.

Lemma log_linspace_length a b n : length (log_linspace a b n) = n.
Proof. unfold log_linspace, linspace. by rewrite !length_map, length_seq. Qed.

Lemma log_linspace_lookup a b n i :
  i < n ->
  log_linspace a b n !! i
  = Some (exp (ln a + INR i * ((ln b - ln a) / INR (n - 1)))).
Proof.
  intros Hi. unfold log_linspace, linspace.
  by rewrite !list_lookup_fmap, lookup_seq_lt.
Qed.

Lemma log_linspace_head a b n :
  (0 < a)%R -> 0 < n -> head (log_linspace a b n) = Some a.
Proof.
  intros Ha Hn. rewrite head_lookup, log_linspace_lookup by done. simpl.
  f_equal. rewrite Rmult_0_l, Rplus_0_r. by apply exp_ln.
Qed.

Lemma log_linspace_last a b n :
  (0 < b)%R -> 2 <= n -> last (log_linspace a b n) = Some b.
Proof.
  intros Hb Hn. rewrite last_lookup, log_linspace_length.
  rewrite log_linspace_lookup by lia. f_equal.
  replace (Init.Nat.pred n) with (n - 1) by lia.
  assert (INR (n - 1) <> 0%R) by (apply not_0_INR; lia).
  replace (ln a + INR (n - 1) * ((ln b - ln a) / INR (n - 1)))%R
    with (ln b) by (field; done).
  by apply exp_ln.
Qed.

(** Consecutive values of the grid are a constant step apart in logarithm. *)
Lemma log_linspace_step a b n i x y :
  log_linspace a b n !! i = Some x -> log_linspace a b n !! S i = Some y ->
  (ln y - ln x = (ln b - ln a) / INR (n - 1))%R.
Proof.
  intros Hx Hy.
  assert (Hi : S i < n).
  { apply lookup_lt_Some in Hy. by rewrite log_linspace_length in Hy. }
  rewrite log_linspace_lookup in Hx, Hy by lia. rewrite S_INR in Hy.
  injection Hx as <-. injection Hy as <-. rewrite !ln_exp. lra.
Qed.

(** What the constructor makes of the concentration and its grid. *)
Lemma __init___concentration X0 ds alpha0 zr g st :
  choice_in_list ->
  __init__ X0 ds alpha0 zr g = inr st ->
  0 < length X0 /\
  alpha_grid st = log_linspace (1 / INR (length X0)) (INR (length X0)) 30 /\
  concentration_from_grid alpha0 st.
Proof.
  intros Hchoice. unfold __init__.
  destruct (Nat.eqb_spec (length X0) 0) as [|Hlen]; [done|].
  set (grid := log_linspace (1 / INR (length X0)) (INR (length X0)) 30).
  destruct (match alpha0 with Some a => _ | None => _ end) as [a g1] eqn:Ea.
  destruct (match zr with Some zr => _ | None => _ end) as [zr1 g2].
  assert (Ha : concentration_from_grid alpha0
    (mkView X0 grid a (map Lbl zr1) (bincount zr1) [] g2
     : View val stat gen)).
  { destruct alpha0 as [a0|]; simpl.
    - right. by injection Ea as <- _.
    - pose proof (Hchoice grid g) as Hin. rewrite Ea in Hin. apply Hin.
      intros Hnil. apply (f_equal length) in Hnil.
      unfold grid in Hnil. by rewrite log_linspace_length in Hnil. }
  match goal with
  | |- context [for_each ?f ?l ?s] =>
      assert (Hloop : post (fun _ s' => same_concentration s s')
                           (fun _ _ => True) (for_each f l s))
  end.
  { apply (post_for_each (same_concentration _)); [done|].
    intros d s Hs. unfold incorporate_dim. wp; concentration. }
  destruct (for_each _ _ _) as [[] s|]; [|done]. intros [= <-].
  destruct Hloop as [Hgrid Halpha]. simpl in *.
  split; [lia|]. split; [done|].
  unfold concentration_from_grid in *. rewrite Hgrid, Halpha.
  by destruct alpha0.
Qed.


(** ** C7: the density of a hypothetical row *)

Lemma zip_with_map {A} (g h : A -> R) l :
  zip_with Rplus (map g l) (map h l) = map (fun y => (g y + h y)%R) l.
Proof. induction l as [|x l IH]; simpl; [done|]. by rewrite IH. Qed.

Lemma map_const_replicate {A B} (b : B) (l : list A) :
  map (fun _ => b) l = replicate (length l) b.
Proof. induction l as [|x l IH]; simpl; [done|]. by rewrite IH. Qed.

Lemma np_iadd_map {A} (g h : A -> R) l :
  np_iadd (map g l) (map h l) = Some (map (fun y => (g y + h y)%R) l).
Proof.
  unfold np_iadd. by rewrite !length_map, Nat.eqb_refl, zip_with_map.
Qed.

Lemma np_add_map {A} (g h : A -> R) l :
  np_add (map g l) (map h l) = Some (map (fun y => (g y + h y)%R) l).
Proof.
  unfold np_add. by rewrite !length_map, Nat.eqb_refl, zip_with_map.
Qed.

Lemma comprehension_pure {A B} (f : A -> M (View val stat gen) B) (g : A -> B)
    l st :
  Forall (fun x => f x st = Ok (g x) st) l ->
  comprehension f l st = Ok (map g l) st.
Proof.
  induction 1 as [|x l Hx _ IH]; simpl; [done|].
  unfold bind. by rewrite Hx, IH.
Qed.

Lemma dims_lookup_elem c (ds : list (nat * Dim stat)) d :
  dims_lookup c ds = Some d -> (c, d) ∈ ds.
Proof.
  induction ds as [|[c' d'] ds IH]; simpl; [done|].
  destruct (Nat.eqb_spec c c') as [->|_].
  - intros [= ->]. by left.
  - intros H. right. by apply IH.
Qed.

Lemma _compute_cluster_crp_logps_returns st :
  (0 < alpha st)%R ->
  _compute_cluster_crp_logps st = Ok (map (crp_log_weight st) (candidates st)) st.
Proof.
  intros Ha. unfold _compute_cluster_crp_logps, bind. simpl.
  rewrite bool_decide_eq_true_2.
  2:{ pose proof (pos_INR (length (Zr st))). lra. }
  simpl. unfold ret. f_equal. apply list_eq. intros i.
  unfold candidates, crp_log_weight. rewrite !list_lookup_fmap.
  destruct (decide (i < length (Nk st))) as [Hi|Hi].
  - rewrite lookup_app_l by (by rewrite length_map).
    rewrite lookup_seq_lt by lia. rewrite list_lookup_fmap.
    apply lookup_lt_is_Some in Hi as [n Hn]. simpl. by rewrite Hn.
  - destruct (decide (i = length (Nk st))) as [->|Hne].
    + rewrite lookup_app_r by (by rewrite length_map).
      rewrite length_map, Nat.sub_diag, lookup_seq_lt by lia. simpl.
      by rewrite (lookup_ge_None_2 (Nk st)) by lia.
    + rewrite lookup_seq_ge by lia.
      rewrite lookup_ge_None_2; [done|].
      rewrite length_app, length_map. simpl. lia.
Qed.

Lemma _compute_cluster_data_logps_returns st cv :
  dims_fit st -> is_Some (dims_lookup cv.1 (dims st)) ->
  _compute_cluster_data_logps cv.1 cv.2 st
  = Ok (map (column_logpdf st cv) (candidates st)) st.
Proof.
  intros Hfit [d Hd]. unfold _compute_cluster_data_logps, bind. simpl.
  rewrite Hd. simpl.
  unfold dims_fit in Hfit. rewrite Forall_forall in Hfit.
  destruct (Hfit _ (dims_lookup_elem _ _ _ Hd)) as [Hlen _]. simpl in Hlen.
  rewrite Hlen. apply comprehension_pure. apply Forall_forall.
  intros k Hk. apply list_elem_of_In, in_seq in Hk. rewrite Hd. simpl.
  unfold column_logpdf. rewrite Hd.
  destruct (dim_logpdf_fits cv.2 k d) as [l ->]; [lia|]. done.
Qed.

Lemma cluster_data_logps_sum_returns st cvs :
  dims_fit st ->
  Forall (fun cv => is_Some (dims_lookup cv.1 (dims st))) cvs ->
  cluster_data_logps_sum (length (candidates st)) cvs st
  = Ok (map (data_loglik st cvs) (candidates st)) st.
Proof.
  intros Hfit Hcvs. unfold cluster_data_logps_sum.
  assert (Hgen : forall g : nat -> R,
    fold_each (fun acc cv =>
        l <- _compute_cluster_data_logps cv.1 cv.2 ;;
        orraise ValueError (np_iadd acc l)) cvs (map g (candidates st)) st
    = Ok (map (fun k => (g k + data_loglik st cvs k)%R) (candidates st)) st).
  { induction Hcvs as [|cv cvs Hcv _ IH]; intros g; simpl.
    - unfold ret. f_equal. apply map_ext. intros k. unfold data_loglik. simpl.
      lra.
    - unfold bind at 1 2.
      rewrite (_compute_cluster_data_logps_returns st cv Hfit Hcv).
      rewrite np_iadd_map. simpl. rewrite IH. f_equal. apply map_ext.
      intros k. unfold data_loglik. simpl. lra. }
  replace (replicate (length (candidates st)) 0%R)
    with (map (fun _ : nat => 0%R) (candidates st)).
  - rewrite Hgen. f_equal. apply map_ext. intros k. lra.
  - apply map_const_replicate.
Qed.

(** The log-sum-exp form is the marginal over the cluster: the density of
    the query is the sum, over the candidates, of the query's density under
    the candidate times the candidate's posterior probability, and these
    probabilities add up to one. *)

Lemma sumR_exp_pos (l : list R) : l <> [] -> (0 < sumR (map exp l))%R.
Proof.
  destruct l as [|x l]; [done|]. intros _. simpl.
  assert (0 <= sumR (map exp l))%R.
  { induction l as [|y l IH]; simpl; [lra|]. pose proof (exp_pos y). lra. }
  pose proof (exp_pos x). lra.
Qed.

Lemma sumR_map_scale {A} (f : A -> R) (c : R) l :
  sumR (map (fun x => (f x / c)%R) l) = (sumR (map f l) / c)%R.
Proof.
  induction l as [|x l IH]; simpl; [lra|]. rewrite IH. lra.
Qed.

Lemma candidates_nonempty st : candidates st <> [].
Proof.
  unfold candidates. rewrite Nat.add_1_r. by rewrite <- cons_seq.
Qed.

Lemma cluster_posterior_total st evidence :
  sumR (map (cluster_posterior st evidence) (candidates st)) = 1%R.
Proof.
  unfold cluster_posterior.
  rewrite (sumR_map_scale
    (fun k => exp (crp_log_weight st k + data_loglik st evidence k))).
  pose proof (sumR_exp_pos
    (map (fun j => (crp_log_weight st j + data_loglik st evidence j)%R)
       (candidates st))) as Hpos.
  rewrite map_map in Hpos. field.
  apply Rgt_not_eq, Hpos. intros Hnil. apply (f_equal length) in Hnil.
  rewrite length_map in Hnil. pose proof (candidates_nonempty st).
  by destruct (candidates st).
Qed.

Lemma marginal_logpdf_exp st query evidence :
  exp (marginal_logpdf st query evidence)
  = sumR (map (fun k => (exp (data_loglik st query k)
                         * cluster_posterior st evidence k)%R)
            (candidates st)).
Proof.
  pose proof (candidates_nonempty st) as Hne.
  unfold marginal_logpdf, logsumexp at 1. rewrite exp_ln.
  - rewrite map_map. f_equal. apply map_ext. intros k.
    unfold cluster_log_posterior, cluster_posterior, logsumexp.
    rewrite exp_plus. f_equal. unfold Rminus. rewrite exp_plus, exp_Ropp.
    rewrite exp_ln, map_map; [done|].
    apply sumR_exp_pos. intros Hnil. apply (f_equal length) in Hnil.
    rewrite length_map in Hnil. by destruct (candidates st).
  - apply sumR_exp_pos. intros Hnil. apply (f_equal length) in Hnil.
    rewrite length_map in Hnil. by destruct (candidates st).
Qed.



(** ** Methods that leave the View as it is *)

Lemma set_dims_same st : set_dims (dims st) st = st.
Proof. by destruct st. Qed.

Lemma dims_loop_unmutated {A} (body : Dim stat -> A -> Dim stat * (exn + A)) ds a :
  (forall d b, (body d b).1 = d) -> (dims_loop body ds a).1 = ds.
Proof.
  intros Hbody. revert a. induction ds as [|[c d] ds IH]; intros a; cbn; [done|].
  specialize (Hbody d a). destruct (body d a) as [d' [e|a']]; cbn in *; subst.
  - done.
  - specialize (IH a'). destruct (dims_loop body ds a'); cbn in *. by subst.
Qed.

Lemma comprehension_unchanged {A B} (f : A -> M (View val stat gen) B) l st :
  (forall x, leaves_unchanged (f x) st) ->
  leaves_unchanged (comprehension f l) st.
Proof.
  intros Hf. unfold leaves_unchanged in *.
  induction l as [|x l IH]; cbn.
  - left. by eexists.
  - unfold bind. destruct (Hf x) as [[y ->]|[e ->]].
    + destruct IH as [[ys ->]|[e ->]]; [left|right]; by eexists.
    + right. by eexists.
Qed.

(** On a vacant row the data log-likelihood of a cluster reads the column
    models without excising anything: nan equals no label. *)
Lemma _logpdf_row_vacant st rowid k :
  Zr st !! rowid = Some NaN -> leaves_unchanged (_logpdf_row rowid k) st.
Proof.
  intros Hz. unfold leaves_unchanged, _logpdf_row, bind; cbn.
  destruct (Nat.leb k (length (Nk st))); cbn; [|right; by eexists].
  unfold for_dims.
  match goal with
  | |- context [dims_loop ?b ?d ?a] =>
      assert (Hsame : (dims_loop b d a).1 = d);
      [|destruct (dims_loop b d a) as [ds [e|l]]]
  end.
  - apply dims_loop_unmutated. intros d b. rewrite Hz; cbn.
    destruct (X_at _ _ _); [|done]. by destruct (dim_logpdf _ _ _).
  - cbn in Hsame. rewrite Hsame, set_dims_same. right; by eexists.
  - cbn in Hsame. rewrite Hsame, set_dims_same. left; by eexists.
Qed.

(** C3 (the code departs from the claim): on a row whose slot is vacant
    [_transition_row] does not return. The test against nan is false, the
    method goes on to index [Nk] with nan and raises; the View is left as it
    was. *)
Theorem _transition_row_vacant_raises st rowid m :
  Zr st !! rowid = Some NaN ->
  exists e, _transition_row rowid m st = Raise e st.
Proof.
  intros Hz.
  unfold _transition_row, _transition_row_with, bind; cbn. rewrite Hz; cbn.
  unfold _transition_row_logp_data, bind; cbn.
  destruct (comprehension_unchanged (_logpdf_row rowid)
              (seq 0 (length (Nk st))) st) as [[l ->]|[e ->]].
  - intros k. by apply _logpdf_row_vacant.
  - rewrite Hz; cbn. by eexists.
  - by eexists.
Qed.

(** ** Queries on observed rows *)

(** C8: on an observed row (an index within [Zr]) the evidence has no
    influence: [logpdf] gives the same outcome under any two evidence sets,
    and so does [simulate], from the same View and random source state. *)
Theorem observed_queries_ignore_evidence st (rowid : Z)
    (query : list (nat * val)) (cols : list nat)
    (E1 E2 : list (nat * val)) (N : nat) :
  (0 <= rowid < Z.of_nat (length (Zr st)))%Z ->
  logpdf rowid query E1 st = logpdf rowid query E2 st /\
  simulate rowid cols E1 N st = simulate rowid cols E2 N st.
Proof.
  intros [Hlo Hhi].
  assert (Hobs : _is_hypothetical rowid st = Ok false st).
  { unfold _is_hypothetical, bind; cbn.
    apply Z.leb_le in Hlo. apply Z.ltb_lt in Hhi. by rewrite Hlo, Hhi. }
  unfold logpdf, simulate.
  by rewrite !(bind_Ok _ _ _ _ _ Hobs).
Qed.

End Properties.

(** * The properties on concrete Views *)

Import Example.

(** ** The concrete collaborators keep their contracts *)

Lemma values_model_law (x : Z) (s : list Z) :
  cm_unincorporate x (cm_incorporate x s) = s.
Proof. simpl. by rewrite Z.eqb_refl. Qed.

Lemma crp_gibbs_weights_ok : gibbs_weights_ok (gen := list nat).
Proof.
  intros nk zr i a m k0 n Hz Hn. simpl. unfold crp_gibbs.
  rewrite Hz, Hn. simpl. by rewrite length_app, length_map, length_replicate.
Qed.

Lemma tape_pflip_in_range : pflip_in_range (gen := list nat).
Proof.
  intros l g Hl. simpl. apply Nat.mod_upper_bound. by destruct l.
Qed.

Lemma tape_choice_in_list : choice_in_list (gen := list nat).
Proof.
  intros l g Hl. simpl. apply list_elem_of_In, nth_In.
  apply Nat.mod_upper_bound. by destruct l.
Qed.

(** ** The concrete Views are in good order *)

Ltac concrete_ledger :=
  split;
  [ intros k Hk; simpl in Hk;
    repeat (destruct k as [|k]; [reflexivity|]); lia
  | intros i k Hz;
    repeat (destruct i as [|i]; simpl in Hz;
            [try discriminate; injection Hz as <-; simpl; lia|]);
    discriminate ].

Ltac concrete_dims :=
  repeat constructor; simpl;
  intros row Hrow;
  repeat (apply elem_of_cons in Hrow as [->|Hrow]; [simpl; lia|]);
  by apply elem_of_nil in Hrow.

Lemma two_singletons_ok : view_ok two_singletons.
Proof. split; [concrete_ledger|concrete_dims]. Qed.

Lemma one_vacant_ok : view_ok one_vacant.
Proof. split; [concrete_ledger|concrete_dims]. Qed.

Lemma five_rows_ok : view_ok five_rows.
Proof. split; [concrete_ledger|concrete_dims]. Qed.

Lemma built_constructed :
  __init__ [[10%Z]; [20%Z]] [mkDim 0 []] (Some 1%R) (Some [0; 1]) [0; 1]
  = inr built.
Proof. reflexivity. Qed.

Lemma built_vacated_run :
  run (call_unincorporate_row 1) built = Ok tt built_vacated.
Proof. reflexivity. Qed.

(** ** C1 on a View built and then changed *)

Lemma built_vacated_reachable : reachable built_vacated.
Proof.
  apply (reachable_call built (call_unincorporate_row 1));
    [|exact I|exact built_vacated_run].
  eapply reachable_init. exact built_constructed.
Qed.


(** ** C2 at a failing input *)

(** Two clusters of one row each, and a random source whose next draw would
    pick cluster 1: with the label omitted, row 2 lands in cluster 0 and
    nothing is drawn. *)
Lemma incorporate_row_omitted_label_example :
  incorporate_row 2 None two_singletons
  = Ok tt (mkView [[10%Z]; [20%Z]; [30%Z]] [1%R] 1%R
             [Lbl 0; Lbl 1; Lbl 0] [2%Z; 1%Z]
             [(0, mkDim 0 [[30%Z; 10%Z]; [20%Z]])] [1; 1; 1]).
Proof. reflexivity. Qed.

(** ** C3 at a failing input *)

Lemma _transition_row_vacant_raises_witness :
  Zr one_vacant !! 1 = Some NaN /\
  exists e, _transition_row 1 1 one_vacant = Raise e one_vacant.
Proof.
  split; [reflexivity|].
  apply (_transition_row_vacant_raises one_vacant 1 1). reflexivity.
Defined.

(** ** C4 on a new row *)

Lemma incorporate_unincorporate_roundtrip_witness :
  view_ok two_singletons /\ 2 < length (X two_singletons) /\
  unassigned two_singletons 2 /\ 1 <= length (Nk two_singletons) /\
  exists st1 st2,
    incorporate_row 2 (Some 1) two_singletons = Ok tt st1 /\
    unincorporate_row 2 st1 = Ok tt st2 /\
    Nk st2 = Nk two_singletons /\ dims st2 = dims two_singletons.
Proof.
  split; [exact two_singletons_ok|].
  split; [simpl; lia|]. split; [by left|]. split; [simpl; lia|].
  destruct (incorporate_unincorporate_roundtrip two_singletons 2 1)
    as (st1&st2&H1&H2&H3).
  - exact values_model_law.
  - exact two_singletons_ok.
  - simpl; lia.
  - by left.
  - simpl; lia.
  - exists st1, st2. split; [exact H1|]. split; [exact H2|exact H3].
Defined.

(** ** C5: the relabelling example *)

(** The example of the claim as it stands: in the assignment [0,0,1,1,1,2]
    cluster 0 has two rows; vacating one of them empties no cluster, moves no
    label and leaves six slots, not [_,0,0,0,1]. *)
Lemma unincorporate_row_six_rows_counterexample :
  Zr (state_of (unincorporate_row 0 six_rows))
    = [NaN; Lbl 0; Lbl 1; Lbl 1; Lbl 1; Lbl 2] /\
  Nk (state_of (unincorporate_row 0 six_rows)) = [1%Z; 3%Z; 1%Z] /\
  Zr (state_of (unincorporate_row 0 six_rows))
    <> [NaN; Lbl 0; Lbl 0; Lbl 0; Lbl 1].
Proof. repeat split. discriminate. Qed.

(** The example as amended: in the assignment [0,1,1,1,2] row 0 is alone in
    cluster 0; vacating it gives [_,0,0,0,1]. *)
Lemma unincorporate_row_compacts_witness :
  view_ok five_rows /\ 0 < length (X five_rows) /\
  Zr five_rows !! 0 = Some (Lbl 0) /\ Nk five_rows !! 0 = Some 1%Z /\
  exists st',
    unincorporate_row 0 five_rows = Ok tt st' /\
    Nk st' = delete 0 (Nk five_rows) /\
    Zr st' = [NaN; Lbl 0; Lbl 0; Lbl 0; Lbl 1] /\
    dims st' = [(0, mkDim 0 [[4%Z; 3%Z; 2%Z]; [5%Z]])].
Proof.
  split; [exact five_rows_ok|]. split; [simpl; lia|].
  split; [reflexivity|]. split; [reflexivity|].
  destruct (unincorporate_row_compacts five_rows 0 0)
    as (st'&Hrun&Hnk&Hzr&_&_&Hdims&_).
  - exact five_rows_ok.
  - simpl; lia.
  - reflexivity.
  - reflexivity.
  - exists st'. split; [exact Hrun|]. split; [exact Hnk|].
    split; [rewrite Hzr; reflexivity|rewrite Hdims; reflexivity].
Defined.

(** ** C6 on a row alone in its cluster *)

Lemma transition_row_candidates_witness :
  view_ok two_singletons /\ 0 < length (X two_singletons) /\
  Zr two_singletons !! 0 = Some (Lbl 0) /\
  Nk two_singletons !! 0 = Some 1%Z /\
  exists logp_data st',
    _transition_row_logp_data 0 1 two_singletons = Ok logp_data st' /\
    comprehension (_logpdf_row 0) [0; 1] two_singletons = Ok logp_data st' /\
    length logp_data = 2.
Proof.
  split; [exact two_singletons_ok|]. split; [simpl; lia|].
  split; [reflexivity|]. split; [reflexivity|].
  apply (transition_row_candidates two_singletons 0 0 1).
  - exact two_singletons_ok.
  - simpl; lia.
  - reflexivity.
  - reflexivity.
Defined.

(** ** C7 on a hypothetical row *)


(** ** C8 on an observed row *)

Lemma observed_queries_ignore_evidence_witness :
  (0 <= 1 < Z.of_nat (length (Zr two_singletons)))%Z /\
  logpdf 1 [(0, 20%Z)] [] two_singletons
    = logpdf 1 [(0, 20%Z)] [(0, 10%Z)] two_singletons /\
  simulate 1 [0] [] 2 two_singletons
    = simulate 1 [0] [(0, 10%Z)] 2 two_singletons.
Proof.
  split; [simpl; lia|].
  apply (observed_queries_ignore_evidence two_singletons 1).
  simpl. lia.
Defined.

(** ** C9 on a View built and then changed *)


(** ** C10: a transition with a vacant slot *)

(** The claim as it stands: the transition of the vacant row itself does not
    fail the partition check; it raises the TypeError of [self.Nk[nan]]. *)
Lemma transition_of_vacant_row_counterexample :
  Zr one_vacant !! 1 = Some NaN /\
  _transition_row 1 1 one_vacant = Raise TypeError one_vacant /\
  TypeError <> AssertionError AssertPartitionSize.
Proof. repeat split. discriminate. Qed.

Lemma transition_row_fails_partition_check_witness :
  view_ok one_vacant /\ (0 < alpha one_vacant)%R /\
  Zr one_vacant !! 0 = Some (Lbl 0) /\ Zr one_vacant !! 1 = Some NaN /\
  exists st',
    _transition_row 0 1 one_vacant
      = Raise (AssertionError AssertPartitionSize) st' /\
    partition_invariant (Zr st') (Nk st') /\
    sumZ (Nk st') <> Z.of_nat (length (Zr st')).
Proof.
  split; [exact one_vacant_ok|]. split; [simpl; lra|].
  split; [reflexivity|]. split; [reflexivity|].
  apply (transition_row_fails_partition_check one_vacant 0 0 1).
  - exact crp_gibbs_weights_ok.
  - exact tape_pflip_in_range.
  - exact one_vacant_ok.
  - simpl; lra.
  - simpl; lia.
  - reflexivity.
  - reflexivity.
Defined.
